(** * The dice grid simulation of [1000.py]: a shallow embedding

    The program is a pygame animation: a 10x10 grid of twenty-sided dice,
    each re-rolling on a timer of its own, and two bars that tally how
    many rolls were low (1-13) and high (14-20), until [MAX_ROLLS] rolls
    were counted.  This file embeds the program without the calls into
    pygame: the configuration constants, the [Dice] class, the set-up of
    [dice_list], the main loop with its events, the update of the dice
    and of the counters, and what a frame draws of the bar chart.

    Modelling choices.
    - A Python [float] is an IEEE 754 binary64 number: it is a primitive
      [float] here, with the kernel's own arithmetic, so every float the
      program computes is computed exactly as Python computes it.
    - A Python [int] is a [Z].
    - [time.time()] is an input: the value it returned is an argument of
      the function that embeds the code calling it.
    - [random.randint] is a library call on the hidden state of the
      [random] module: a [RandomSource] is that state with the call and
      its contract ([a <= randint(a, b) <= b]).
    - Objects mutated in place ([Dice] instances, the module's globals) are
      records passed through the functions, in the order of the code. *)

From Stdlib Require Import ZArith List Lia Bool Sorted.
From Stdlib Require Import Floats Uint63.
Import ListNotations.

#[local] Set Warnings "-inexact-float".
#[local] Open Scope Z_scope.

(** ** Configuration (lines 5-31 of the source) *)

Definition WINDOW_WIDTH : Z := 1000.
Definition WINDOW_HEIGHT : Z := 600.
Definition BAR_CHART_WIDTH : Z := 200.
Definition DICE_AREA_MARGIN : Z := 40.
Definition FPS : Z := 60.

Definition COLUMNS : Z := 10.
Definition ROWS : Z := 10.
Definition NUM_DICE : Z := COLUMNS * ROWS.
Definition DICE_SIZE : Z := 40.
Definition SPACING : Z := 10.

Definition BASE_INTERVAL : float := 1.0%float.
Definition MIN_INTERVAL : float := 0.2%float.

Definition MAX_ROLLS : Z := 1000.

Definition BAR_WIDTH : Z := 50.
Definition BAR_MAX_HEIGHT : Z := 400.
Definition BAR_BOTTOM : Z := 550.
Definition LEFT_BAR_X : Z := 50.
Definition RIGHT_BAR_X : Z := WINDOW_WIDTH - 200.

(** ** Python numbers *)

(** [float(z)] for an [int]: exact for [|z| < 2^53], which covers every
    integer the program converts (die indices, counters, constants). *)
Definition float_of_int (z : Z) : float :=
  if z <? 0 then (- of_uint63 (Uint63.of_Z (- z)))%float
  else of_uint63 (Uint63.of_Z z).

(** [a / b] on two [int]s is true division: a [float], the quotient
    rounded once, and [ZeroDivisionError] (here [None]) when [b] is 0.
    For operands that are exact as floats it is the float division of the
    two conversions. *)
Definition int_truediv (a b : Z) : option float :=
  if b =? 0 then None else Some (float_of_int a / float_of_int b)%float.

(** [a >= b] on floats is [b <= a]; both are false on a NaN. *)
Definition float_ge (a b : float) : bool := (b <=? a)%float.

(** ** The random module *)

(** The state of Python's generator with [random.randint]: the call
    returns an integer of the closed range and the next state. *)
Class RandomSource (G : Type) : Type := {
  randint : Z -> Z -> G -> Z * G;
  randint_range : forall a b g, a <= b -> a <= fst (randint a b g) <= b
}.

(** A source that replays a script: each call takes the next number of
    the list, clamped into the range asked for.  Every sequence of
    outcomes of [randint] is the replay of some script, so a statement
    proved for every [RandomSource] holds for every run of the program. *)
Definition clamp (a b x : Z) : Z := Z.max a (Z.min b x).

Definition replay_randint (a b : Z) (g : list Z) : Z * list Z :=
  match g with
  | [] => (a, [])
  | x :: g' => (clamp a b x, g')
  end.

Lemma replay_randint_range a b g :
  a <= b -> a <= fst (replay_randint a b g) <= b.
Proof.
  intros Hab. destruct g as [|x g']; simpl; unfold clamp; lia.
Qed.

#[export] Instance Replay : RandomSource (list Z) := {
  randint := replay_randint;
  randint_range := replay_randint_range
}.

(** ** The Dice class (lines 44-60) *)

Record Dice : Type := mkDice {
  dice_x : Z;
  dice_y : Z;
  dice_size : Z;
  update_interval : float;
  last_update_time : float;
  value : Z
}.

Section Simulation.

Context {G : Type} `{RandomSource G}.

(** [Dice.__init__]: [now] is what [time.time()] returned. *)
Definition Dice_init (x y size : Z) (interval now : float) (g : G) : Dice * G :=
  let (v, g') := randint 1 20 g in
  (mkDice x y size interval now v, g').

(** [Dice.update]: the new die, the returned flag and the generator. *)
Definition Dice_update (d : Dice) (current_time : float) (g : G)
  : Dice * bool * G :=
  if float_ge (current_time - last_update_time d)%float (update_interval d)
  then
    let (v, g') := randint 1 20 g in
    (mkDice (dice_x d) (dice_y d) (dice_size d) (update_interval d)
            current_time v, true, g')
  else (d, false, g).

(** ** Setting up the grid (lines 71-88) *)

Definition grid_width : Z := COLUMNS * DICE_SIZE + (COLUMNS - 1) * SPACING.
Definition grid_height : Z := ROWS * DICE_SIZE + (ROWS - 1) * SPACING.
Definition grid_start_x : Z := BAR_CHART_WIDTH + DICE_AREA_MARGIN.
Definition grid_start_y : Z := (WINDOW_HEIGHT - grid_height) / 2.

(** The interval of die [i] (line 87): [i / (NUM_DICE - 1)] is a true
    division of two integers and the rest is float arithmetic.  [NUM_DICE
    - 1] is 99, so the division never raises. *)
Definition interval (i : Z) : float :=
  (BASE_INTERVAL
   - (float_of_int i / float_of_int (NUM_DICE - 1))
     * (BASE_INTERVAL - MIN_INTERVAL))%float.

(** [range(n)] *)
Definition range (n : Z) : list Z := map Z.of_nat (seq 0 (Z.to_nat n)).

(** The body of the set-up loop for index [i]; [now] is the clock read by
    the constructor. *)
Definition make_die (i : Z) (now : float) (g : G) : Dice * G :=
  let col := i mod COLUMNS in
  let row := i / COLUMNS in
  let x := grid_start_x + col * (DICE_SIZE + SPACING) in
  let y := grid_start_y + row * (DICE_SIZE + SPACING) in
  Dice_init x y DICE_SIZE (interval i) now g.

(** The set-up loop over a list of indices; [clock i] is the time at
    which die [i] is constructed. *)
Fixpoint make_dice (clock : Z -> float) (indices : list Z) (g : G)
  : list Dice * G :=
  match indices with
  | [] => ([], g)
  | i :: rest =>
      let (d, g1) := make_die i (clock i) g in
      let (ds, g2) := make_dice clock rest g1 in
      (d :: ds, g2)
  end.

(** ** The globals of the module and the main loop (lines 90-125) *)

(** The mutable globals other than [dice_list], with the state of the
    [random] module. *)
Record Globals : Type := mkGlobals {
  global_roll_count : Z;
  count_low : Z;
  count_high : Z;
  simulation_active : bool;
  rng : G
}.

Record Sim : Type := mkSim {
  dice_list : list Dice;
  globals : Globals
}.

(** The state when the main loop is entered. *)
Definition initial (clock : Z -> float) (g : G) : Sim :=
  let (ds, g') := make_dice clock (range NUM_DICE) g in
  mkSim ds (mkGlobals 0 0 0 true g').

(** Lines 116-121: a roll was made and [d] is the die after it. *)
Definition count_roll (d : Dice) (w : Globals) (g' : G) : Globals :=
  let n := global_roll_count w + 1 in
  if (1 <=? value d) && (value d <=? 13)
  then mkGlobals n (count_low w + 1) (count_high w) (simulation_active w) g'
  else mkGlobals n (count_low w) (count_high w + 1) (simulation_active w) g'.

(** What one turn of the [for] loop did: whether [update] was called on
    the die, and whether the loop was left by [break]. *)
Record Turn : Type := mkTurn {
  turn_die : Dice;
  turn_globals : Globals;
  turn_called : bool;
  turn_rolled : bool;
  turn_break : bool
}.

(** Lines 115-125, the body of [for dice in dice_list].  The [and] of line
    115 does not evaluate [dice.update] when the count is at the cap. *)
Definition visit (current_time : float) (d : Dice) (w : Globals) : Turn :=
  if global_roll_count w <? MAX_ROLLS then
    let '(d', updated, g') := Dice_update d current_time (rng w) in
    if updated then
      let w1 := count_roll d' w g' in
      if global_roll_count w1 >=? MAX_ROLLS
      then mkTurn d' (mkGlobals (global_roll_count w1) (count_low w1)
                                (count_high w1) false (rng w1))
                  true true true
      else mkTurn d' w1 true true false
    else mkTurn d' w true false false
  else mkTurn d w false false false.

(** Lines 114-125, the [for] loop from the die of index [i] on.  The
    result is the dice, the globals and the indices of the dice on which
    [update] was called, in order. *)
Fixpoint for_dice (current_time : float) (i : nat) (todo : list Dice)
  (w : Globals) : list Dice * Globals * list nat :=
  match todo with
  | [] => ([], w, [])
  | d :: rest =>
      let t := visit current_time d w in
      let called := if turn_called t then [i] else [] in
      if turn_break t
      then (turn_die t :: rest, turn_globals t, called)
      else
        let '(rest', w', log) :=
          for_dice current_time (S i) rest (turn_globals t) in
        (turn_die t :: rest', w', called ++ log)
  end.

(** Lines 112-125: what one frame does to the simulation; [current_time]
    is the clock read at line 105.  [step_log] is the list of the dice
    that [update] was called on during the frame. *)
Definition step_full (current_time : float) (s : Sim) : Sim * list nat :=
  if simulation_active (globals s) then
    let '(ds, w, log) := for_dice current_time 0 (dice_list s) (globals s) in
    (mkSim ds w, log)
  else (s, []).

Definition step (current_time : float) (s : Sim) : Sim :=
  fst (step_full current_time s).

Definition step_log (current_time : float) (s : Sim) : list nat :=
  snd (step_full current_time s).

(** The main loop over the frames whose clock readings are [times]. *)
Fixpoint run (times : list float) (s : Sim) : Sim :=
  match times with
  | [] => s
  | t :: rest => run rest (step t s)
  end.

(** The states of the frames of a run, the first state included. *)
Fixpoint frames (times : list float) (s : Sim) : list Sim :=
  match times with
  | [] => [s]
  | t :: rest => s :: frames rest (step t s)
  end.

(** The states the program can be in between two frames. *)
Inductive reachable : Sim -> Prop :=
| reachable_initial clock g : reachable (initial clock g)
| reachable_step t s : reachable s -> reachable (step t s).

(** ** The bar chart (lines 132-133) *)

(** [(count / cap) * max_height] on integers: a true division, then a
    float product with [max_height] converted. *)
Definition bar_height (count cap max_height : Z) : option float :=
  match int_truediv count cap with
  | Some q => Some (q * float_of_int max_height)%float
  | None => None
  end.

Definition low_bar_height (s : Sim) : option float :=
  bar_height (count_low (globals s)) MAX_ROLLS BAR_MAX_HEIGHT.

Definition high_bar_height (s : Sim) : option float :=
  bar_height (count_high (globals s)) MAX_ROLLS BAR_MAX_HEIGHT.

End Simulation.

Arguments Globals G : clear implicits.
Arguments Sim G : clear implicits.
Arguments Turn G : clear implicits.

(** ** Sequences of calls and traces, for the statements below *)

Section Traces.

Context {G : Type} `{RandomSource G}.

(** The die after the calls [update(t)] for the [t] of [times], in order,
    and the values [last_update_time] took on the way, the first one
    included. *)
Fixpoint updates (times : list float) (d : Dice) (g : G) : Dice * G :=
  match times with
  | [] => (d, g)
  | t :: rest =>
      let '(d', _, g') := Dice_update d t g in updates rest d' g'
  end.

Fixpoint update_times (times : list float) (d : Dice) (g : G) : list float :=
  match times with
  | [] => [last_update_time d]
  | t :: rest =>
      let '(d', _, g') := Dice_update d t g in
      last_update_time d :: update_times rest d' g'
  end.

(** The [simulation_active] flag at each frame of a run. *)
Definition phases (times : list float) (s : Sim G) : list bool :=
  map (fun s' => simulation_active (globals s')) (frames times s).

End Traces.

(** How often a list of flags goes from [a] to [b] between neighbours. *)
Fixpoint flips (a b : bool) (l : list bool) : nat :=
  match l with
  | [] => O
  | x :: rest =>
      match rest with
      | [] => O
      | y :: _ =>
          ((if Bool.eqb x a && Bool.eqb y b then 1 else 0) + flips a b rest)%nat
      end
  end.

(** [value] is a face of the die. *)
Definition face (d : Dice) : Prop := 1 <= value d <= 20.

(** What the loop keeps true of the counters and the flag. *)
Definition tally_ok {G : Type} (w : Globals G) : Prop :=
  count_low w + count_high w = global_roll_count w
  /\ 0 <= count_low w
  /\ 0 <= count_high w
  /\ global_roll_count w <= MAX_ROLLS
  /\ simulation_active w = (global_roll_count w <? MAX_ROLLS).

(** The order in which [last_update_time] moves: [b] is [a] itself or a
    later time.  (With [=] for the first case a NaN, which no comparison
    relates to itself, is not before itself either.) *)
Definition not_before (a b : float) : Prop :=
  a = b \/ (a <? b)%float = true.

(** The numbers above zero: the positive finite ones and [+oo]. *)
Definition sf_positive (x : spec_float) : bool :=
  match x with
  | S754_infinity false | S754_finite false _ _ => true
  | _ => false
  end.

(** ** A run of the program

    All the constructors read the clock at 0; the generator replays the
    faces 20, 19, ..., 1 over and over.  Nine frames one second apart
    re-roll every die, a frame at 9.5 re-rolls the dice whose interval is
    at most 0.5, and the frame at 10.5 reaches the cap in the middle of
    the list. *)
Definition demo_clock : Z -> float := fun _ => 0%float.

Definition demo_script : list Z :=
  map (fun n => 20 - n mod 20) (range 1200).

Definition demo_start : Sim (list Z) := initial demo_clock demo_script.

Definition demo_times : list float :=
  [1.0; 2.0; 3.0; 4.0; 5.0; 6.0; 7.0; 8.0; 9.0; 9.5]%float.

Definition demo_mid : Sim (list Z) := run demo_times demo_start.

Definition demo_end : Sim (list Z) := step 10.5%float demo_mid.

Definition sample_die : Dice := mkDice 240 55 40 1.0%float 9.0%float 20.

Definition demo_die : Dice :=
  nth 0 (dice_list demo_mid) (mkDice 0 0 0 0%float 0%float 0).

Definition demo_last_die : Dice := nth 99 (dice_list demo_mid) sample_die.

Definition sample_globals : Globals (list Z) := mkGlobals 5 3 2 true [7].

(** ** The rest of the frame: events and drawing (lines 104-163) *)

(** The grid cell of index [i], as lines 82-85 compute it. *)
Definition cell (i : Z) : Z * Z :=
  (grid_start_x + (i mod COLUMNS) * (DICE_SIZE + SPACING),
   grid_start_y + (i / COLUMNS) * (DICE_SIZE + SPACING)).

(** An event of [pygame.event.get()]: the loop only asks whether its type
    is [pygame.QUIT]. *)
Inductive Event : Type :=
| QUIT
| OtherEvent (type : Z).

Definition is_QUIT (e : Event) : bool :=
  match e with
  | QUIT => true
  | OtherEvent _ => false
  end.

(** Lines 107-109: [running] after the events of a frame. *)
Definition poll (running : bool) (events : list Event) : bool :=
  fold_left (fun r e => if is_QUIT e then false else r) events running.

(** The rectangle of a bar (lines 136 and 138): left, top, width and
    height as they are passed to [pygame.draw.rect].  [BAR_BOTTOM -
    height] is an [int] minus a [float]. *)
Record BarRect : Type := mkBarRect {
  bar_left : Z;
  bar_top : float;
  bar_width : Z;
  bar_tall : float
}.

Definition bar_rect (left : Z) (height : float) : BarRect :=
  mkBarRect left (float_of_int BAR_BOTTOM - height)%float BAR_WIDTH height.

Section MainLoop.

Context {G : Type} `{RandomSource G}.

(** Line 56 for a die at a time: would [update] re-roll it. *)
Definition due (t : float) (d : Dice) : bool :=
  float_ge (t - last_update_time d)%float (update_interval d).

(** What a frame draws besides the dice: the two bars, the two counts of
    the labels, and whether the end message is shown (lines 132-160).
    [None] stands for the [ZeroDivisionError] of a bar height. *)
Record Picture : Type := mkPicture {
  low_bar : option BarRect;
  high_bar : option BarRect;
  low_label : Z;
  high_label : Z;
  end_msg : bool
}.

Definition draw (s : Sim G) : Picture :=
  mkPicture
    (option_map (bar_rect LEFT_BAR_X) (low_bar_height s))
    (option_map (bar_rect RIGHT_BAR_X) (high_bar_height s))
    (count_low (globals s))
    (count_high (globals s))
    (negb (simulation_active (globals s))).

(** The main loop (lines 104-163) over the frames it is given: each frame
    is the clock reading and the events pending.  A frame polls the
    events, updates the dice and draws; the test of [while running] comes
    after that.  The result is the state and the pictures drawn when the
    loop was left, or [None] when the frames given ran out with the loop
    still running. *)
Fixpoint main_loop (inputs : list (float * list Event)) (s : Sim G)
  : option (Sim G * list Picture) :=
  match inputs with
  | [] => None
  | (current_time, events) :: rest =>
      let running := poll true events in
      let s' := step current_time s in
      let pic := draw s' in
      if running then
        match main_loop rest s' with
        | Some (s'', pics) => Some (s'', pic :: pics)
        | None => None
        end
      else Some (s', [pic])
  end.

(** The pictures of the frames of a run, one for each state after its
    step. *)
Fixpoint pictures (times : list float) (s : Sim G) : list Picture :=
  match times with
  | [] => []
  | t :: rest => draw (step t s) :: pictures rest (step t s)
  end.

(** From [w] to [w'] no counter went down and the count went up by [n]
    at most. *)
Definition grown (w w' : Globals G) (n : Z) : Prop :=
  global_roll_count w <= global_roll_count w' <= global_roll_count w + n
  /\ count_low w <= count_low w'
  /\ count_high w <= count_high w'.

End MainLoop.

Arguments Picture : clear implicits.

(** A frame whose events hold no [QUIT]. *)
Definition no_QUIT (frame : float * list Event) : bool :=
  negb (existsb is_QUIT (snd frame)).

(** What a frame never changes of a die, and what the set-up gives to the
    die of index [i]. *)
Definition fixed_part (d : Dice) : Z * Z * Z * float :=
  (dice_x d, dice_y d, dice_size d, update_interval d).

Definition assigned_part (i : Z) : Z * Z * Z * float :=
  (fst (cell i), snd (cell i), DICE_SIZE, interval i).

(** The clock of a die went forward between two states of it. *)
Definition advanced (p : Dice * Dice) : bool :=
  (last_update_time (fst p) <? last_update_time (snd p))%float.

(** A die was re-rolled between two states of it (its clock went
    forward) and shows a low face, 13 or less, or a high one, 14 or
    more. *)
Definition low_roll (p : Dice * Dice) : bool :=
  advanced p && (value (snd p) <=? 13).

Definition high_roll (p : Dice * Dice) : bool :=
  advanced p && (14 <=? value (snd p)).

(** How many pairs of a list pass a test. *)
Definition tally {A : Type} (f : A -> bool) (l : list A) : Z :=
  Z.of_nat (length (filter f l)).

(** * Properties *)

Section DiceProperties.

Context {G : Type} `{RandomSource G}.

Lemma Dice_update_rolled (d : Dice) (t : float) (g : G) :
  float_ge (t - last_update_time d)%float (update_interval d) = true ->
  Dice_update d t g =
    (mkDice (dice_x d) (dice_y d) (dice_size d) (update_interval d) t
            (fst (randint 1 20 g)),
     true, snd (randint 1 20 g)).
Proof.
  intros Hge. unfold Dice_update. rewrite Hge.
  destruct (randint 1 20 g); reflexivity.
Qed.

Lemma Dice_update_kept (d : Dice) (t : float) (g : G) :
  float_ge (t - last_update_time d)%float (update_interval d) = false ->
  Dice_update d t g = (d, false, g).
Proof.
  intros Hge. unfold Dice_update. rewrite Hge. reflexivity.
Qed.

Lemma Dice_update_cases (d : Dice) (t : float) (g : G) :
  (float_ge (t - last_update_time d)%float (update_interval d) = true
   /\ Dice_update d t g =
        (mkDice (dice_x d) (dice_y d) (dice_size d) (update_interval d) t
                (fst (randint 1 20 g)),
         true, snd (randint 1 20 g)))
  \/ (float_ge (t - last_update_time d)%float (update_interval d) = false
      /\ Dice_update d t g = (d, false, g)).
Proof.
  destruct (float_ge (t - last_update_time d)%float (update_interval d)) eqn:E.
  - left. split; [reflexivity | now apply Dice_update_rolled].
  - right. split; [reflexivity | now apply Dice_update_kept].
Qed.

Lemma randint_face (g : G) : 1 <= fst (randint 1 20 g) <= 20.
Proof. apply randint_range. lia. Qed.

(** C1. [Dice.update(current_time)] returns true exactly when
    [current_time - last_update_time >= update_interval]; it then sets
    [value] to the draw of [random.randint(1, 20)], a number of 1..20,
    and [last_update_time] to [current_time], and leaves the other
    fields; otherwise it returns false and changes neither the die nor
    the generator. *)
Theorem Dice_update_spec (d : Dice) (current_time : float) (g : G) :
  let r := Dice_update d current_time g in
  let d' := fst (fst r) in
  let elapsed :=
    float_ge (current_time - last_update_time d)%float (update_interval d) in
  snd (fst r) = elapsed
  /\ (elapsed = true ->
      value d' = fst (randint 1 20 g)
      /\ 1 <= value d' <= 20
      /\ last_update_time d' = current_time
      /\ update_interval d' = update_interval d
      /\ dice_x d' = dice_x d /\ dice_y d' = dice_y d
      /\ dice_size d' = dice_size d
      /\ snd r = snd (randint 1 20 g))
  /\ (elapsed = false -> d' = d /\ snd r = g).
Proof.
  cbv zeta.
  destruct (Dice_update_cases d current_time g) as [[E ->] | [E ->]];
    rewrite E; simpl.
  - split; [reflexivity | split].
    + intros _. pose proof (randint_face g). repeat split; lia.
    + discriminate.
  - split; [reflexivity | split].
    + discriminate.
    + intros _. split; reflexivity.
Qed.

Lemma Dice_init_face x y size iv now (g : G) :
  face (fst (Dice_init x y size iv now g)).
Proof.
  unfold Dice_init, face. pose proof (randint_face g) as Hr.
  destruct (randint 1 20 g); simpl in *. exact Hr.
Qed.

Lemma Dice_update_face (d : Dice) (t : float) (g : G) :
  face d -> face (fst (fst (Dice_update d t g))).
Proof.
  intros Hd.
  destruct (Dice_update_cases d t g) as [[_ ->] | [_ ->]]; simpl.
  - apply randint_face.
  - exact Hd.
Qed.

Lemma updates_face (times : list float) :
  forall (d : Dice) (g : G), face d -> face (fst (updates times d g)).
Proof.
  induction times as [|t rest IH]; intros d g Hd; simpl.
  - exact Hd.
  - pose proof (Dice_update_face d t g Hd) as Hd'.
    destruct (Dice_update d t g) as [[d' b] g']. simpl in Hd'.
    now apply IH.
Qed.

End DiceProperties.

Section LoopProperties.

Context {G : Type} `{RandomSource G}.

(** *** One turn of the loop *)

Lemma count_roll_spec (d : Dice) (w : Globals G) (g' : G) :
  face d ->
  let w1 := count_roll d w g' in
  global_roll_count w1 = global_roll_count w + 1
  /\ simulation_active w1 = simulation_active w
  /\ rng w1 = g'
  /\ ((value d <= 13
       /\ count_low w1 = count_low w + 1 /\ count_high w1 = count_high w)
      \/ (14 <= value d
          /\ count_low w1 = count_low w /\ count_high w1 = count_high w + 1)).
Proof.
  unfold face, count_roll. intros Hd. cbv zeta.
  destruct (1 <=? value d) eqn:E1; destruct (value d <=? 13) eqn:E2; simpl;
    repeat split; try reflexivity; lia.
Qed.

(** The four ways a turn can go. *)
Inductive turn_kind (t : float) (d : Dice) (w : Globals G) : Turn G -> Prop :=
| turn_capped :
    MAX_ROLLS <= global_roll_count w ->
    turn_kind t d w (mkTurn d w false false false)
| turn_waiting :
    global_roll_count w < MAX_ROLLS ->
    Dice_update d t (rng w) = (d, false, rng w) ->
    turn_kind t d w (mkTurn d w true false false)
| turn_rolling d' g' :
    global_roll_count w < MAX_ROLLS ->
    Dice_update d t (rng w) = (d', true, g') ->
    global_roll_count w + 1 < MAX_ROLLS ->
    turn_kind t d w (mkTurn d' (count_roll d' w g') true true false)
| turn_last d' g' :
    global_roll_count w < MAX_ROLLS ->
    Dice_update d t (rng w) = (d', true, g') ->
    MAX_ROLLS <= global_roll_count w + 1 ->
    turn_kind t d w
      (mkTurn d'
         (mkGlobals (global_roll_count w + 1)
                    (count_low (count_roll d' w g'))
                    (count_high (count_roll d' w g')) false g')
         true true true).

Lemma count_roll_count (d : Dice) (w : Globals G) (g' : G) :
  global_roll_count (count_roll d w g') = global_roll_count w + 1.
Proof. unfold count_roll. destruct (_ && _); reflexivity. Qed.

Lemma count_roll_rng (d : Dice) (w : Globals G) (g' : G) :
  rng (count_roll d w g') = g'.
Proof. unfold count_roll. destruct (_ && _); reflexivity. Qed.

Lemma count_roll_active (d : Dice) (w : Globals G) (g' : G) :
  simulation_active (count_roll d w g') = simulation_active w.
Proof. unfold count_roll. destruct (_ && _); reflexivity. Qed.

Lemma visit_kind (t : float) (d : Dice) (w : Globals G) :
  turn_kind t d w (visit t d w).
Proof.
  unfold visit.
  destruct (global_roll_count w <? MAX_ROLLS) eqn:Ecap.
  - apply Z.ltb_lt in Ecap.
    destruct (Dice_update_cases d t (rng w)) as [[_ E] | [_ E]].
    + rewrite E.
      destruct (global_roll_count (count_roll _ w _) >=? MAX_ROLLS) eqn:Efull.
      * rewrite count_roll_count, count_roll_rng.
        rewrite Z.geb_le in Efull. rewrite count_roll_count in Efull.
        eapply turn_last; eauto.
      * assert (global_roll_count w + 1 < MAX_ROLLS).
        { rewrite count_roll_count in Efull.
          destruct (Z.geb_spec (global_roll_count w + 1) MAX_ROLLS);
            [discriminate | lia]. }
        eapply turn_rolling; eauto.
    + rewrite E. now apply turn_waiting.
  - apply Z.ltb_ge in Ecap. now apply turn_capped.
Qed.

Lemma visit_face (t : float) (d : Dice) (w : Globals G) :
  face d -> face (turn_die (visit t d w)).
Proof.
  intros Hd. destruct (visit_kind t d w) as [ | | d' g' _ E _ | d' g' _ E _];
    simpl; try exact Hd.
  - pose proof (Dice_update_face d t (rng w) Hd) as F. now rewrite E in F.
  - pose proof (Dice_update_face d t (rng w) Hd) as F. now rewrite E in F.
Qed.

Lemma visit_tally_ok (t : float) (d : Dice) (w : Globals G) :
  face d -> tally_ok w -> tally_ok (turn_globals (visit t d w)).
Proof.
  intros Hd (Hsum & Hlo & Hhi & Hcap & Hact).
  destruct (visit_kind t d w) as [ | | d' g' Hlt E Hnext | d' g' Hlt E Hnext];
    simpl; try (repeat split; assumption).
  - pose proof (Dice_update_face d t (rng w) Hd) as F. rewrite E in F.
    simpl in F.
    destruct (count_roll_spec d' w g' F) as (Hc & Ha & _ & Hb).
    unfold tally_ok. rewrite Hc, Ha, Hact.
    assert ((global_roll_count w <? MAX_ROLLS) = true) as -> by now apply Z.ltb_lt.
    assert ((global_roll_count w + 1 <? MAX_ROLLS) = true) as ->
        by now apply Z.ltb_lt.
    repeat split; lia.
  - pose proof (Dice_update_face d t (rng w) Hd) as F. rewrite E in F.
    simpl in F.
    destruct (count_roll_spec d' w g' F) as (Hc & Ha & _ & Hb).
    unfold tally_ok; simpl.
    assert ((global_roll_count w + 1 <? MAX_ROLLS) = false) as ->
        by now apply Z.ltb_ge.
    repeat split; lia.
Qed.

(** *** The whole loop *)

Lemma for_dice_tally_ok (t : float) (todo : list Dice) :
  forall (i : nat) (w : Globals G),
    Forall face todo -> tally_ok w ->
    Forall face (fst (fst (for_dice t i todo w)))
    /\ tally_ok (snd (fst (for_dice t i todo w))).
Proof.
  induction todo as [|d rest IH]; intros i w Hfaces Hw; simpl.
  - split; [constructor | exact Hw].
  - inversion Hfaces as [|? ? Hd Hrest]; subst.
    pose proof (visit_face t d w Hd) as Hd'.
    pose proof (visit_tally_ok t d w Hd Hw) as Hw'.
    destruct (turn_break (visit t d w)); simpl.
    + split; [constructor; assumption | exact Hw'].
    + specialize (IH (S i) _ Hrest Hw').
      destruct (for_dice t (S i) rest (turn_globals (visit t d w)))
        as [[rest' w''] log]. simpl in *.
      destruct IH as [IHf IHw]. split; [constructor; assumption | exact IHw].
Qed.

Definition sim_ok (s : Sim G) : Prop :=
  Forall face (dice_list s) /\ tally_ok (globals s).

Lemma step_inactive (t : float) (s : Sim G) :
  simulation_active (globals s) = false -> step_full t s = (s, []).
Proof. intros Hoff. unfold step_full. now rewrite Hoff. Qed.

Lemma step_active (t : float) (s : Sim G) :
  simulation_active (globals s) = true ->
  step_full t s =
    (mkSim (fst (fst (for_dice t 0 (dice_list s) (globals s))))
           (snd (fst (for_dice t 0 (dice_list s) (globals s)))),
     snd (for_dice t 0 (dice_list s) (globals s))).
Proof.
  intros Hon. unfold step_full. rewrite Hon.
  destruct (for_dice t 0 (dice_list s) (globals s)) as [[ds w] log].
  reflexivity.
Qed.

Lemma step_sim_ok (t : float) (s : Sim G) : sim_ok s -> sim_ok (step t s).
Proof.
  intros [Hf Hw]. unfold step.
  destruct (simulation_active (globals s)) eqn:Hact.
  - rewrite step_active by assumption. simpl.
    destruct (for_dice_tally_ok t (dice_list s) 0 (globals s) Hf Hw).
    split; assumption.
  - rewrite step_inactive by assumption. split; assumption.
Qed.

Lemma make_dice_face (clock : Z -> float) (indices : list Z) :
  forall g : G, Forall face (fst (make_dice clock indices g)).
Proof.
  induction indices as [|i rest IH]; intros g; simpl.
  - constructor.
  - unfold make_die.
    pose proof (Dice_init_face
                  (grid_start_x + i mod COLUMNS * (DICE_SIZE + SPACING))
                  (grid_start_y + i / COLUMNS * (DICE_SIZE + SPACING))
                  DICE_SIZE (interval i) (clock i) g) as Hd.
    destruct (Dice_init _ _ _ _ _ g) as [d g1]. simpl in Hd.
    specialize (IH g1). destruct (make_dice clock rest g1) as [ds g2].
    simpl in *. constructor; assumption.
Qed.

Lemma initial_sim_ok (clock : Z -> float) (g : G) : sim_ok (initial clock g).
Proof.
  unfold initial, sim_ok.
  pose proof (make_dice_face clock (range NUM_DICE) g) as Hf.
  destruct (make_dice clock (range NUM_DICE) g) as [ds g']. simpl in *.
  split; [exact Hf |]. unfold tally_ok; simpl.
  repeat split; try reflexivity; unfold MAX_ROLLS; lia.
Qed.

Lemma reachable_sim_ok (s : Sim G) : reachable s -> sim_ok s.
Proof.
  induction 1 as [clock g | t s _ IH].
  - apply initial_sim_ok.
  - now apply step_sim_ok.
Qed.

End LoopProperties.

Section SimulationProperties.

Context {G : Type} `{RandomSource G}.

(** C6. The value of a die is a face, 1..20: when the die is constructed,
    after one call of [update] on a die whose value is a face, after any
    sequence of such calls, and so for every die of [dice_list] in every
    state the program reaches. *)
Theorem value_always_face :
  (forall x y size iv now (g : G), face (fst (Dice_init x y size iv now g)))
  /\ (forall (d : Dice) t (g : G),
         face d -> face (fst (fst (Dice_update d t g))))
  /\ (forall x y size iv now (g g' : G) (times : list float),
         face (fst (updates times (fst (Dice_init x y size iv now g)) g')))
  /\ (forall s : Sim G, reachable s -> Forall face (dice_list s)).
Proof.
  split; [| split; [| split]].
  - intros. apply Dice_init_face.
  - intros. now apply Dice_update_face.
  - intros. apply updates_face, Dice_init_face.
  - intros s Hs. now destruct (reachable_sim_ok s Hs).
Qed.

(** C3. In every state the program reaches, [global_roll_count] is at
    most [MAX_ROLLS], which is 1000. *)
Theorem roll_count_capped (s : Sim G) :
  reachable s ->
  global_roll_count (globals s) <= MAX_ROLLS /\ MAX_ROLLS = 1000.
Proof.
  intros Hs. destruct (reachable_sim_ok s Hs) as [_ (_ & _ & _ & Hcap & _)].
  split; [exact Hcap | reflexivity].
Qed.

(** C9. At the top of every frame [simulation_active] is
    [global_roll_count < MAX_ROLLS].  So when the simulation has finished
    the count is 1000, not less and not more, and the roll that reached
    it was counted in a bucket: the two buckets add up to 1000. *)
Theorem active_iff_below_cap (s : Sim G) :
  reachable s ->
  simulation_active (globals s) = (global_roll_count (globals s) <? MAX_ROLLS)
  /\ (simulation_active (globals s) = false ->
      global_roll_count (globals s) = 1000
      /\ count_low (globals s) + count_high (globals s) = 1000).
Proof.
  intros Hs.
  destruct (reachable_sim_ok s Hs) as [_ (Hsum & _ & _ & Hcap & Hact)].
  split; [exact Hact |].
  intros Hoff. rewrite Hoff in Hact. symmetry in Hact.
  apply Z.ltb_ge in Hact. unfold MAX_ROLLS in *. lia.
Qed.

(** *** After the end *)

Lemma step_finished (t : float) (s : Sim G) :
  simulation_active (globals s) = false -> step t s = s.
Proof. intros Hoff. unfold step. now rewrite step_inactive. Qed.

Lemma run_finished (times : list float) (s : Sim G) :
  simulation_active (globals s) = false -> run times s = s.
Proof.
  induction times as [|t rest IH]; intros Hoff; simpl.
  - reflexivity.
  - rewrite step_finished by assumption. now apply IH.
Qed.

Lemma phases_finished (times : list float) (s : Sim G) :
  simulation_active (globals s) = false ->
  phases times s = repeat false (S (length times)).
Proof.
  unfold phases. induction times as [|t rest IH]; intros Hoff; simpl.
  - now rewrite Hoff.
  - rewrite step_finished by assumption. rewrite Hoff. f_equal.
    now apply IH.
Qed.

Lemma flips_repeat (a b x : bool) (n : nat) :
  a <> b -> flips a b (repeat x n) = O.
Proof.
  intros Hab. induction n as [|n IH]; [reflexivity |].
  destruct n as [|n]; [reflexivity |].
  change (repeat x (S (S n))) with (x :: x :: repeat x n).
  change (flips a b (x :: x :: repeat x n))
    with ((if Bool.eqb x a && Bool.eqb x b then 1 else 0)
          + flips a b (repeat x (S n)))%nat.
  rewrite IH.
  destruct x, a, b; simpl; try reflexivity; now elim Hab.
Qed.

Lemma phases_cons (t : float) (rest : list float) (s : Sim G) :
  phases (t :: rest) s
  = simulation_active (globals s) :: phases rest (step t s).
Proof. reflexivity. Qed.

Lemma phases_head (times : list float) (s : Sim G) :
  exists tl, phases times s = simulation_active (globals s) :: tl.
Proof. destruct times; eexists; reflexivity. Qed.

Lemma flips_phases (times : list float) :
  forall s : Sim G,
    (flips true false (phases times s) <= 1)%nat
    /\ flips false true (phases times s) = O.
Proof.
  induction times as [|t rest IH]; intros s.
  - simpl. split; [lia | reflexivity].
  - destruct (simulation_active (globals s)) eqn:Hact.
    + rewrite phases_cons, Hact.
      destruct (phases_head rest (step t s)) as [tl Htl].
      destruct (simulation_active (globals (step t s))) eqn:Hact'.
      * destruct (IH (step t s)) as [IH1 IH2]. rewrite Htl in *.
        simpl in *. split; [exact IH1 | exact IH2].
      * pose proof (phases_finished rest (step t s) Hact') as Hrep.
        rewrite Hrep.
        change (flips true false (true :: repeat false (S (length rest))))
          with (1 + flips true false (repeat false (S (length rest))))%nat.
        change (flips false true (true :: repeat false (S (length rest))))
          with (0 + flips false true (repeat false (S (length rest))))%nat.
        rewrite !flips_repeat by discriminate. split; [lia | reflexivity].
    + rewrite (phases_finished (t :: rest) s Hact).
      rewrite !flips_repeat by discriminate. split; [lia | reflexivity].
Qed.

(** C4. Once [simulation_active] is false a frame changes nothing of the
    simulation: the counters, the dice and the flag stay as they are, over
    any number of frames.  Along a run the flag goes from true to false at
    most once and never from false to true, and from an active state a
    frame clears the flag exactly when it brings [global_roll_count] to
    [MAX_ROLLS]. *)
Theorem finished_is_final (s : Sim G) :
  reachable s ->
  (simulation_active (globals s) = false ->
   forall times, run times s = s /\ Forall (eq s) (frames times s))
  /\ (forall times,
         (flips true false (phases times s) <= 1)%nat
         /\ flips false true (phases times s) = O)
  /\ (simulation_active (globals s) = true ->
      forall t,
        global_roll_count (globals s) < MAX_ROLLS
        /\ (simulation_active (globals (step t s)) = false
            <-> global_roll_count (globals (step t s)) = MAX_ROLLS)).
Proof.
  intros Hs. split; [| split].
  - intros Hoff times. split; [now apply run_finished |].
    induction times as [|t rest IH]; simpl.
    + constructor; [reflexivity | constructor].
    + constructor; [reflexivity |]. now rewrite step_finished.
  - intros times. apply flips_phases.
  - intros Hon t.
    destruct (reachable_sim_ok s Hs) as [_ (_ & _ & _ & _ & Hact)].
    destruct (reachable_sim_ok _ (reachable_step t s Hs))
      as [_ (_ & _ & _ & Hcap' & Hact')].
    rewrite Hon in Hact. symmetry in Hact. apply Z.ltb_lt in Hact.
    split; [exact Hact |]. rewrite Hact'. rewrite Z.ltb_ge. lia.
Qed.

End SimulationProperties.

Section FrozenAtCap.

Context {G : Type} `{RandomSource G}.

Lemma visit_break (t : float) (d : Dice) (w : Globals G) :
  turn_break (visit t d w) = true ->
  turn_called (visit t d w) = true
  /\ turn_rolled (visit t d w) = true
  /\ simulation_active (turn_globals (visit t d w)) = false
  /\ MAX_ROLLS <= global_roll_count (turn_globals (visit t d w))
  /\ global_roll_count (turn_globals (visit t d w)) = global_roll_count w + 1.
Proof.
  destruct (visit_kind t d w); simpl; try discriminate.
  intros _. repeat split; try reflexivity; assumption.
Qed.

Lemma visit_no_break (t : float) (d : Dice) (w : Globals G) :
  turn_break (visit t d w) = false ->
  simulation_active (turn_globals (visit t d w)) = simulation_active w.
Proof.
  destruct (visit_kind t d w); simpl; try discriminate; try reflexivity.
  intros _. apply count_roll_active.
Qed.

End FrozenAtCap.

(** * Facts of binary64 arithmetic

    The comparisons and the subtraction of primitive floats are specified
    by [SFltb], [SFleb] and [SF64sub] on [spec_float]; what the program
    needs of them is proved on that specification. *)

Module Binary64.

(** The number of binary digits of a mantissa brackets it between two
    powers of two. *)
Lemma digits2_pos_bounds (m : positive) :
  2 ^ (Zpos (digits2_pos m) - 1) <= Zpos m < 2 ^ Zpos (digits2_pos m).
Proof.
  induction m as [p IH | p IH |]; simpl digits2_pos.
  - rewrite Pos2Z.inj_succ.
    replace (Z.succ (Zpos (digits2_pos p)) - 1) with (Z.succ (Zpos (digits2_pos p) - 1)) by lia.
    rewrite !Z.pow_succ_r by lia. lia.
  - rewrite Pos2Z.inj_succ.
    replace (Z.succ (Zpos (digits2_pos p)) - 1) with (Z.succ (Zpos (digits2_pos p) - 1)) by lia.
    rewrite !Z.pow_succ_r by lia. lia.
  - simpl. lia.
Qed.

(** A valid finite number has a mantissa below [2^53] and an exponent of
    at least [emin = -1074]; above [emin] it is normal, so its mantissa
    has all its 53 digits. *)
Lemma bounded_mantissa (m : positive) (e : Z) :
  bounded prec emax m e = true ->
  -1074 <= e /\ Zpos m < 2 ^ 53 /\ (-1074 < e -> 2 ^ 52 <= Zpos m).
Proof.
  unfold bounded, canonical_mantissa, fexp, SpecFloat.emin, prec, emax.
  intros Hb. apply andb_prop in Hb. destruct Hb as [Hc _].
  apply Z.eqb_eq in Hc.
  pose proof (digits2_pos_bounds m) as [Hlo Hhi].
  set (dg := Zpos (digits2_pos m)) in *.
  assert (0 < dg) by (unfold dg; lia).
  split; [lia | split].
  - assert (dg <= 53) by lia.
    eapply Z.lt_le_trans; [exact Hhi |]. apply Z.pow_le_mono_r; lia.
  - intros He. assert (dg = 53) by lia.
    replace (dg - 1) with 52 in Hlo by lia. exact Hlo.
Qed.

(** Aligning a mantissa to a smaller exponent multiplies it by the power
    of two between the exponents. *)
Lemma shl_align_fst (mx : positive) (ex ez : Z) :
  ez <= ex -> Zpos (fst (shl_align mx ex ez)) = Zpos mx * 2 ^ (ex - ez).
Proof.
  intros Hle. unfold shl_align.
  destruct (ez - ex) as [|p|p] eqn:E; cbn [fst].
  - replace (ex - ez) with 0 by lia. rewrite Z.pow_0_r. lia.
  - exfalso. lia.
  - replace (ex - ez) with (Zpos p) by lia.
    rewrite <- Z.shiftl_mul_pow2 by lia. cbn [Z.shiftl].
    rewrite (Pos.iter_swap_gen _ _ Zpos xO (Z.mul 2)) by reflexivity.
    reflexivity.
Qed.

(** Rounding keeps the sign it is given: a negative amount never rounds
    to a number above zero. *)
Lemma binary_round_aux_sign (m : Z) (e : Z) (l : location) :
  sf_positive (binary_round_aux prec emax true m e l) = false.
Proof.
  unfold binary_round_aux.
  destruct (shr_fexp prec emax m e l) as [mrs' e'].
  destruct (shr_fexp prec emax _ e' loc_Exact) as [mrs'' e''].
  destruct (shr_m mrs''); try reflexivity.
  destruct (e'' <=? emax - prec); reflexivity.
Qed.

Lemma binary_round_sign (m : positive) (e : Z) :
  sf_positive (binary_round prec emax true m e) = false.
Proof.
  unfold binary_round. destruct (shl_align _ _ _) as [mz ez].
  apply binary_round_aux_sign.
Qed.

Lemma binary_normalize_positive (m e : Z) :
  sf_positive (binary_normalize prec emax m e false) = true -> 0 < m.
Proof.
  destruct m as [|p|p]; simpl; intros Hp.
  - discriminate.
  - lia.
  - rewrite binary_round_sign in Hp. discriminate.
Qed.

Lemma SFleb_positive (i r : spec_float) :
  SFltb (S754_zero false) i = true -> SFleb i r = true -> sf_positive r = true.
Proof.
  unfold SFltb, SFleb.
  destruct i as [s|s| |s m e]; simpl; try discriminate;
    destruct s; try discriminate; intros _;
    destruct r as [s'|s'| |s' m' e']; simpl; try discriminate;
    destruct s'; simpl; try discriminate; reflexivity.
Qed.

Lemma pow2_gap (a b : Z) : a < b -> 2 * 2 ^ 52 <= 2 ^ 52 * 2 ^ (b - a).
Proof.
  intros Hab.
  replace (b - a) with (Z.succ (b - a - 1)) by lia.
  rewrite Z.pow_succ_r by lia.
  assert (0 < 2 ^ (b - a - 1)) by (apply Z.pow_pos_nonneg; lia).
  nia.
Qed.

(** Of two valid finite numbers of the same sign, the one with the larger
    exponent has the larger magnitude. *)
Lemma aligned_exponent_lt (mx my : positive) (ex ey : Z) :
  bounded prec emax mx ex = true ->
  bounded prec emax my ey = true ->
  ex < ey ->
  Zpos (fst (shl_align mx ex (Z.min ex ey)))
  < Zpos (fst (shl_align my ey (Z.min ex ey))).
Proof.
  intros Hx Hy Hlt.
  destruct (bounded_mantissa mx ex Hx) as (Hex & Hmx & _).
  destruct (bounded_mantissa my ey Hy) as (_ & _ & Hmy).
  rewrite !shl_align_fst by lia.
  replace (Z.min ex ey) with ex by lia.
  replace (ex - ex) with 0 by lia. rewrite Z.pow_0_r, Z.mul_1_r.
  specialize (Hmy ltac:(lia)).
  pose proof (pow2_gap ex ey Hlt) as Hgap.
  assert (0 < 2 ^ (ey - ex)) by (apply Z.pow_pos_nonneg; lia).
  change (2 ^ 53) with (2 * 2 ^ 52) in Hmx.
  nia.
Qed.

Lemma aligned_exponent_eq (mx my : positive) (e : Z) :
  Zpos (fst (shl_align mx e (Z.min e e))) = Zpos mx.
Proof.
  rewrite shl_align_fst by lia.
  replace (e - Z.min e e) with 0 by lia. rewrite Z.pow_0_r. lia.
Qed.

(** The sign of a rounded difference is the sign of the exact one: if
    [x - y] is above zero then [y < x].  Here NaN, the infinities and
    the two zeros are cases like the others. *)
Lemma SFsub_positive (x y : spec_float) :
  valid_binary x = true -> valid_binary y = true ->
  sf_positive (SF64sub x y) = true -> SFltb y x = true.
Proof.
  unfold SF64sub, SFltb.
  destruct x as [sx|sx| |sx mx ex]; destruct y as [sy|sy| |sy my ey];
    try solve [cbn; intros; congruence];
    try solve [destruct sx; cbn; intros; congruence];
    try solve [destruct sy; cbn; intros; congruence];
    try solve [destruct sx, sy; cbn; intros; congruence].
  intros Hx Hy. simpl in Hx, Hy. cbn [SFsub].
  intros Hpos. apply binary_normalize_positive in Hpos.
  cbn [SFcompare].
  destruct (Z.compare_spec ey ex) as [Heq | Hlt | Hgt].
  - subst ey. rewrite !(aligned_exponent_eq mx mx) in Hpos.
    rewrite (aligned_exponent_eq my my) in Hpos.
    change (Pos.compare_cont Eq my mx) with (my ?= mx)%positive.
    destruct sx, sy; cbn [cond_Zopp] in *; try reflexivity; try lia;
      destruct (Pos.compare_spec my mx); cbn; try reflexivity; lia.
  - pose proof (aligned_exponent_lt my mx ey ex Hy Hx Hlt) as Hal.
    rewrite (Z.min_comm ey ex) in Hal.
    destruct sx, sy; cbn [cond_Zopp] in *; try reflexivity; lia.
  - pose proof (aligned_exponent_lt mx my ex ey Hx Hy Hgt) as Hal.
    destruct sx, sy; cbn [cond_Zopp] in *; try reflexivity; lia.
Qed.

Ltac sf_signs :=
  repeat match goal with
         | s : bool |- _ => destruct s
         end.

Lemma SFltb_trans (x y z : spec_float) :
  SFltb x y = true -> SFltb y z = true -> SFltb x z = true.
Proof.
  unfold SFltb.
  destruct x as [sx|sx| |sx mx ex]; destruct y as [sy|sy| |sy my ey];
    destruct z as [sz|sz| |sz mz ez]; sf_signs; cbn;
    try reflexivity; try discriminate;
    change (Pos.compare_cont Eq) with Pos.compare;
    destruct (Z.compare_spec ex ey); cbn; try discriminate;
    destruct (Z.compare_spec ey ez); cbn; try discriminate;
    destruct (Z.compare_spec ex ez); cbn; try reflexivity; try lia;
    repeat match goal with
           | |- context [(?p ?= ?q)%positive] =>
               destruct (Pos.compare_spec p q); cbn
           end;
    try reflexivity; try discriminate; intros; lia.
Qed.

Lemma SFltb_asym (x y : spec_float) :
  SFltb x y = true -> SFltb y x = false.
Proof.
  unfold SFltb.
  destruct x as [sx|sx| |sx mx ex]; destruct y as [sy|sy| |sy my ey];
    sf_signs; cbn; try reflexivity; try discriminate;
    change (Pos.compare_cont Eq) with Pos.compare;
    destruct (Z.compare_spec ex ey); cbn; try discriminate;
    destruct (Z.compare_spec ey ex); cbn; try reflexivity; try lia;
    repeat match goal with
           | |- context [(?p ?= ?q)%positive] =>
               destruct (Pos.compare_spec p q); cbn
           end;
    try reflexivity; try discriminate; intros; lia.
Qed.

(** The same facts on the floats of the program. *)
Lemma float_sub_ge_positive (a b iv : float) :
  (0 <? iv)%float = true -> (iv <=? a - b)%float = true -> (b <? a)%float = true.
Proof.
  rewrite !FloatAxioms.ltb_spec, FloatAxioms.leb_spec, FloatAxioms.sub_spec. intros Hiv Hge.
  apply SFsub_positive; try apply Prim2SF_valid.
  eapply SFleb_positive; [exact Hiv | exact Hge].
Qed.

Lemma float_ltb_trans (a b c : float) :
  (a <? b)%float = true -> (b <? c)%float = true -> (a <? c)%float = true.
Proof. rewrite !FloatAxioms.ltb_spec. apply SFltb_trans. Qed.

Lemma float_ltb_asym (a b : float) :
  (a <? b)%float = true -> (b <? a)%float = false.
Proof. rewrite !FloatAxioms.ltb_spec. apply SFltb_asym. Qed.

End Binary64.

(** * The intervals of the dice and the heights of the bars *)

Section Numbers.

Lemma range_In (n i : Z) : 0 <= i < n -> In i (range n).
Proof.
  intros Hi. unfold range. rewrite <- (Z2Nat.id i) by lia.
  apply in_map, in_seq. lia.
Qed.

Lemma range_forallb (f : Z -> bool) (n : Z) :
  forallb f (range n) = true -> forall i, 0 <= i < n -> f i = true.
Proof.
  intros Hall i Hi. rewrite forallb_forall in Hall.
  now apply Hall, range_In.
Qed.

(** The interval of the last die, computed as the program computes it:
    [99 / 99] is 1.0, [1.0 - 0.2] is 0.8, and [1.0 - 0.8] is one rounding
    step below 0.2. *)
Lemma interval_last :
  interval (NUM_DICE - 1) = 0.19999999999999996%float.
Proof. vm_compute. reflexivity. Qed.

Lemma interval_first : interval 0 = BASE_INTERVAL.
Proof. vm_compute. reflexivity. Qed.

Lemma intervals_positive (i : Z) :
  0 <= i < NUM_DICE -> (0 <? interval i)%float = true.
Proof.
  apply (range_forallb (fun i => (0 <? interval i)%float)).
  vm_compute. reflexivity.
Qed.

Lemma intervals_sorted (i j : Z) :
  0 <= i <= j -> j < NUM_DICE -> (interval j <=? interval i)%float = true.
Proof.
  intros Hij Hj.
  assert (forallb (fun i => forallb (fun j => (j <? i) || (interval j <=? interval i)%float)
                              (range NUM_DICE)) (range NUM_DICE) = true) as Hall
      by (vm_compute; reflexivity).
  pose proof (range_forallb _ _ Hall i ltac:(lia)) as Hi. cbv beta in Hi.
  pose proof (range_forallb _ _ Hi j ltac:(lia)) as Hj'. cbv beta in Hj'.
  apply orb_prop in Hj'. destruct Hj' as [Hlt | Hle]; [| exact Hle].
  apply Z.ltb_lt in Hlt. lia.
Qed.

Lemma intervals_strict (i : Z) :
  0 <= i < NUM_DICE - 1 -> (interval (i + 1) <? interval i)%float = true.
Proof.
  apply (range_forallb (fun i => (interval (i + 1) <? interval i)%float)).
  vm_compute. reflexivity.
Qed.

Lemma bar_heights_bounded (count : Z) :
  0 <= count <= MAX_ROLLS ->
  exists h : float,
    bar_height count MAX_ROLLS BAR_MAX_HEIGHT = Some h
    /\ (h <=? float_of_int BAR_MAX_HEIGHT)%float = true
    /\ (0 <=? h)%float = true.
Proof.
  intros Hc.
  assert (forallb (fun c =>
            match bar_height c MAX_ROLLS BAR_MAX_HEIGHT with
            | Some h => (h <=? float_of_int BAR_MAX_HEIGHT)%float
                        && (0 <=? h)%float
            | None => false
            end) (range (MAX_ROLLS + 1)) = true) as Hall
      by (vm_compute; reflexivity).
  pose proof (range_forallb _ _ Hall count ltac:(lia)) as Hh. cbv beta in Hh.
  destruct (bar_height count MAX_ROLLS BAR_MAX_HEIGHT) as [h|];
    [| discriminate].
  apply andb_prop in Hh. exists h. intuition.
Qed.

End Numbers.

Section Intervals.

Context {G : Type} `{RandomSource G}.

(** *** The intervals never change *)

Lemma Dice_update_interval (d : Dice) (t : float) (g : G) :
  update_interval (fst (fst (Dice_update d t g))) = update_interval d.
Proof.
  destruct (Dice_update_cases d t g) as [[_ ->] | [_ ->]]; reflexivity.
Qed.

Lemma visit_interval (t : float) (d : Dice) (w : Globals G) :
  update_interval (turn_die (visit t d w)) = update_interval d.
Proof.
  destruct (visit_kind t d w) as [ | | d' g' _ E _ | d' g' _ E _];
    simpl; try reflexivity;
    pose proof (Dice_update_interval d t (rng w)) as F;
    now rewrite E in F.
Qed.

Lemma for_dice_intervals (t : float) (todo : list Dice) :
  forall (i : nat) (w : Globals G),
    map update_interval (fst (fst (for_dice t i todo w)))
    = map update_interval todo.
Proof.
  induction todo as [|d rest IH]; intros i w; simpl; [reflexivity |].
  destruct (turn_break (visit t d w)); simpl.
  - now rewrite visit_interval.
  - specialize (IH (S i) (turn_globals (visit t d w))).
    destruct (for_dice t (S i) rest (turn_globals (visit t d w)))
      as [[rest' w'] log]. simpl in *.
    now rewrite visit_interval, IH.
Qed.

Lemma make_dice_intervals (clock : Z -> float) (indices : list Z) :
  forall g : G,
    map update_interval (fst (make_dice clock indices g))
    = map interval indices.
Proof.
  induction indices as [|i rest IH]; intros g; simpl; [reflexivity |].
  unfold make_die, Dice_init. destruct (randint 1 20 g) as [v g1].
  specialize (IH g1). destruct (make_dice clock rest g1) as [ds g2].
  simpl in *. now rewrite IH.
Qed.

Lemma reachable_intervals (s : Sim G) :
  reachable s ->
  map update_interval (dice_list s) = map interval (range NUM_DICE).
Proof.
  induction 1 as [clock g | t s _ IH].
  - unfold initial.
    pose proof (make_dice_intervals clock (range NUM_DICE) g) as Hm.
    destruct (make_dice clock (range NUM_DICE) g) as [ds g']. exact Hm.
  - unfold step. destruct (simulation_active (globals s)) eqn:Hact.
    + rewrite step_active by assumption. simpl.
      now rewrite for_dice_intervals.
    + now rewrite step_inactive.
Qed.

Lemma reachable_interval_positive (s : Sim G) (d : Dice) :
  reachable s -> In d (dice_list s) ->
  (0 <? update_interval d)%float = true.
Proof.
  intros Hs Hd.
  apply (in_map update_interval) in Hd.
  rewrite (reachable_intervals s Hs) in Hd.
  apply in_map_iff in Hd. destruct Hd as (i & <- & Hi).
  unfold range in Hi. apply in_map_iff in Hi.
  destruct Hi as (n & <- & Hn). apply in_seq in Hn.
  apply intervals_positive. unfold NUM_DICE, COLUMNS, ROWS in *. lia.
Qed.

(** *** The clock of a die *)

Lemma not_before_refl (a : float) : not_before a a.
Proof. now left. Qed.

Lemma not_before_trans (a b c : float) :
  not_before a b -> not_before b c -> not_before a c.
Proof.
  intros [-> | Hab] [-> | Hbc]; try (now left); try (now right).
  right. eapply Binary64.float_ltb_trans; eassumption.
Qed.

Lemma Dice_update_later (d : Dice) (t : float) (g : G) :
  (0 <? update_interval d)%float = true ->
  snd (fst (Dice_update d t g)) = true ->
  (last_update_time d <? t)%float = true.
Proof.
  intros Hpos Hrolled.
  destruct (Dice_update_cases d t g) as [[E _] | [_ E]].
  - unfold float_ge in E.
    eapply Binary64.float_sub_ge_positive; eassumption.
  - rewrite E in Hrolled. discriminate.
Qed.

Lemma Dice_update_not_before (d : Dice) (t : float) (g : G) :
  (0 <? update_interval d)%float = true ->
  not_before (last_update_time d)
             (last_update_time (fst (fst (Dice_update d t g)))).
Proof.
  intros Hpos.
  pose proof (Dice_update_later d t g Hpos) as Hlater.
  destruct (Dice_update_cases d t g) as [[_ E] | [_ E]];
    rewrite E in *; simpl in *.
  - right. now apply Hlater.
  - now left.
Qed.

Lemma Dice_update_regressed (d : Dice) (t : float) (g : G) :
  (0 <? update_interval d)%float = true ->
  (t <? last_update_time d)%float = true ->
  Dice_update d t g = (d, false, g).
Proof.
  intros Hpos Hback.
  pose proof (Dice_update_later d t g Hpos) as Hlater.
  destruct (Dice_update_cases d t g) as [[_ E] | [_ E]]; [| exact E].
  rewrite E in Hlater. simpl in Hlater.
  apply Binary64.float_ltb_asym in Hback.
  rewrite Hlater in Hback by reflexivity. discriminate.
Qed.

Lemma update_times_sorted (times : list float) :
  forall (d : Dice) (g : G),
    (0 <? update_interval d)%float = true ->
    StronglySorted not_before (update_times times d g)
    /\ Forall (not_before (last_update_time d)) (update_times times d g).
Proof.
  induction times as [|t rest IH]; intros d g Hpos; simpl.
  - split; repeat constructor.
  - pose proof (Dice_update_not_before d t g Hpos) as Hstep.
    pose proof (Dice_update_interval d t g) as Hiv.
    destruct (Dice_update d t g) as [[d' b] g']. simpl in *.
    rewrite <- Hiv in Hpos. destruct (IH d' g' Hpos) as [Hsorted Hall].
    assert (Forall (not_before (last_update_time d)) (update_times rest d' g'))
      as Hall'.
    { eapply Forall_impl; [| exact Hall].
      intros a Ha. eapply not_before_trans; eassumption. }
    split.
    + constructor; assumption.
    + constructor; [apply not_before_refl | assumption].
Qed.

End Intervals.

Section NumericClaims.

Context {G : Type} `{RandomSource G}.

(** C7, at the last die.  In the state the main loop starts from, the
    interval of die 99 is 0.19999999999999996: it is below [MIN_INTERVAL]
    and not equal to it, whatever the clock and the generator. *)
Theorem last_die_interval (clock : Z -> float) (g : G) :
  nth_error (map update_interval (dice_list (initial clock g)))
            (Z.to_nat (NUM_DICE - 1))
  = Some 0.19999999999999996%float
  /\ (interval (NUM_DICE - 1) =? MIN_INTERVAL)%float = false
  /\ (interval (NUM_DICE - 1) <? MIN_INTERVAL)%float = true.
Proof.
  split; [| split; vm_compute; reflexivity].
  rewrite (reachable_intervals _ (reachable_initial clock g)).
  vm_compute. reflexivity.
Qed.

(** The parts of C7 that hold: along the index the intervals never
    increase (they strictly decrease from each die to the next), and the
    first die has [BASE_INTERVAL]. *)
Theorem intervals_non_increasing :
  (forall i j : Z,
      0 <= i <= j -> j < NUM_DICE ->
      (interval j <=? interval i)%float = true)
  /\ (forall i : Z,
         0 <= i < NUM_DICE - 1 ->
         (interval (i + 1) <? interval i)%float = true)
  /\ interval 0 = BASE_INTERVAL
  /\ (forall (clock : Z -> float) (g : G),
         map update_interval (dice_list (initial clock g))
         = map interval (range NUM_DICE)).
Proof.
  split; [| split; [| split]].
  - apply intervals_sorted.
  - apply intervals_strict.
  - apply interval_first.
  - intros clock g. apply reachable_intervals, reachable_initial.
Qed.

(** C8. The height of a bar is [(count / cap) * max_height], a function
    of the three numbers alone.  For 500, 1000 and 400 it is 200.0.  In
    every state the program reaches, the two bars are that function of
    [count_low] and [count_high] with [MAX_ROLLS] and [BAR_MAX_HEIGHT],
    and since a count is between 0 and [MAX_ROLLS] a bar is between 0 and
    [BAR_MAX_HEIGHT]. *)
Theorem bar_height_spec (s : Sim G) :
  reachable s ->
  (forall count cap max_height : Z,
      cap <> 0 ->
      bar_height count cap max_height
      = Some ((float_of_int count / float_of_int cap)
              * float_of_int max_height)%float)
  /\ bar_height 500 1000 400 = Some 200.0%float
  /\ low_bar_height s
     = bar_height (count_low (globals s)) MAX_ROLLS BAR_MAX_HEIGHT
  /\ high_bar_height s
     = bar_height (count_high (globals s)) MAX_ROLLS BAR_MAX_HEIGHT
  /\ (forall count : Z,
         0 <= count <= MAX_ROLLS ->
         exists h : float,
           bar_height count MAX_ROLLS BAR_MAX_HEIGHT = Some h
           /\ (h <=? float_of_int BAR_MAX_HEIGHT)%float = true
           /\ (0 <=? h)%float = true)
  /\ (exists low high : float,
         low_bar_height s = Some low /\ high_bar_height s = Some high
         /\ (low <=? float_of_int BAR_MAX_HEIGHT)%float = true
         /\ (high <=? float_of_int BAR_MAX_HEIGHT)%float = true).
Proof.
  intros Hs.
  destruct (reachable_sim_ok s Hs) as [_ (Hsum & Hlo & Hhi & Hcap & _)].
  split; [| split; [| split; [| split; [| split]]]].
  - intros count cap max_height Hcap0. unfold bar_height, int_truediv.
    destruct (Z.eqb_spec cap 0) as [? | _]; [contradiction | reflexivity].
  - vm_compute. reflexivity.
  - reflexivity.
  - reflexivity.
  - apply bar_heights_bounded.
  - destruct (bar_heights_bounded (count_low (globals s)) ltac:(lia))
      as (low & Elow & Hlow & _).
    destruct (bar_heights_bounded (count_high (globals s)) ltac:(lia))
      as (high & Ehigh & Hhigh & _).
    exists low, high. repeat split; assumption.
Qed.

End NumericClaims.

(** Not every assigned interval is at least [MIN_INTERVAL]: the last
    one is below it. *)
Lemma not_every_interval_at_least_min :
  ~ (forall i : Z, 0 <= i < NUM_DICE ->
                   float_ge (interval i) MIN_INTERVAL = true).
Proof.
  intros Hall. specialize (Hall (NUM_DICE - 1)).
  assert (0 <= NUM_DICE - 1 < NUM_DICE) as Hi by (vm_compute; intuition congruence).
  specialize (Hall Hi). vm_compute in Hall. discriminate.
Qed.

(** * The properties on the run [demo_start], [demo_mid], [demo_end] *)

Lemma run_reachable {G : Type} `{RandomSource G} (times : list float) :
  forall s : Sim G, reachable s -> reachable (run times s).
Proof.
  induction times as [|t rest IH]; intros s Hs; simpl.
  - exact Hs.
  - apply IH. now apply reachable_step.
Qed.

Lemma demo_mid_reachable : reachable demo_mid.
Proof. apply run_reachable, reachable_initial. Qed.

Lemma demo_end_reachable : reachable demo_end.
Proof. apply reachable_step, demo_mid_reachable. Qed.

Lemma demo_counts :
  (global_roll_count (globals demo_mid), count_low (globals demo_mid),
   count_high (globals demo_mid), simulation_active (globals demo_mid))
  = (938, 609, 329, true)
  /\ (global_roll_count (globals demo_end), count_low (globals demo_end),
      count_high (globals demo_end), simulation_active (globals demo_end))
     = (1000, 650, 350, false).
Proof. split; vm_compute; reflexivity. Qed.

(** [sample_die] last rolled at 9 and waits 1 second: at 9.5 [update]
    returns false and leaves it, at 10 it re-rolls. *)
Lemma Dice_update_spec_witness :
  snd (fst (Dice_update sample_die 9.5%float [7])) = false
  /\ fst (fst (Dice_update sample_die 9.5%float [7])) = sample_die
  /\ snd (fst (Dice_update sample_die 10.0%float [7])) = true
  /\ value (fst (fst (Dice_update sample_die 10.0%float [7]))) = 7
  /\ last_update_time (fst (fst (Dice_update sample_die 10.0%float [7])))
     = 10.0%float.
Proof.
  pose proof (Dice_update_spec sample_die 9.5%float [7]) as Hkept.
  pose proof (Dice_update_spec sample_die 10.0%float [7]) as Hrolled.
  cbv zeta in Hkept, Hrolled.
  destruct Hkept as (Hflag & _ & Hsame).
  destruct Hrolled as (Hflag' & Hnew & _).
  destruct (Hsame ltac:(vm_compute; reflexivity)) as [Hd _].
  destruct (Hnew ltac:(vm_compute; reflexivity)) as (Hv & _ & Ht & _).
  split; [| split; [| split; [| split]]].
  - rewrite Hflag. vm_compute. reflexivity.
  - exact Hd.
  - rewrite Hflag'. vm_compute. reflexivity.
  - rewrite Hv. reflexivity.
  - exact Ht.
Defined.

Lemma value_always_face_witness :
  Forall face (dice_list demo_end)
  /\ face (fst (updates [10.0; 3.0; 12.0]%float demo_die demo_script)).
Proof.
  destruct (@value_always_face (list Z) Replay)
    as (_ & Hstep & _ & Hreach).
  split.
  - exact (Hreach demo_end demo_end_reachable).
  - apply updates_face. unfold demo_die, face. vm_compute.
    split; discriminate.
Defined.

Lemma roll_count_capped_witness :
  global_roll_count (globals demo_end) <= MAX_ROLLS /\ MAX_ROLLS = 1000.
Proof. exact (roll_count_capped demo_end demo_end_reachable). Defined.

Lemma finished_is_final_witness :
  simulation_active (globals demo_end) = false
  /\ run [11.5; 12.5; 4.0]%float demo_end = demo_end
  /\ (flips true false
        (phases (demo_times ++ [10.5; 11.5; 12.5]%float) demo_start) <= 1)%nat
  /\ (simulation_active (globals (step 10.5%float demo_mid)) = false
      <-> global_roll_count (globals (step 10.5%float demo_mid)) = MAX_ROLLS).
Proof.
  assert (simulation_active (globals demo_end) = false) as Hoff
      by (vm_compute; reflexivity).
  assert (simulation_active (globals demo_mid) = true) as Hon
      by (vm_compute; reflexivity).
  split; [exact Hoff | split; [| split]].
  - exact (proj1 (proj1 (finished_is_final demo_end demo_end_reachable)
                        Hoff [11.5; 12.5; 4.0]%float)).
  - exact (proj1 (proj1 (proj2 (finished_is_final demo_start
                                  (reachable_initial demo_clock demo_script)))
                        (demo_times ++ [10.5; 11.5; 12.5]%float))).
  - exact (proj2 (proj2 (proj2 (finished_is_final demo_mid
                                  demo_mid_reachable))
                        Hon 10.5%float)).
Defined.

Lemma active_iff_below_cap_witness :
  simulation_active (globals demo_end) = false
  /\ global_roll_count (globals demo_end) = 1000
  /\ count_low (globals demo_end) + count_high (globals demo_end) = 1000.
Proof.
  assert (simulation_active (globals demo_end) = false) as Hoff
      by (vm_compute; reflexivity).
  split; [exact Hoff |].
  exact (proj2 (active_iff_below_cap demo_end demo_end_reachable) Hoff).
Defined.

Lemma bar_height_spec_witness :
  exists low high : float,
    low_bar_height demo_mid = Some low /\ high_bar_height demo_mid = Some high
    /\ (low <=? float_of_int BAR_MAX_HEIGHT)%float = true
    /\ (high <=? float_of_int BAR_MAX_HEIGHT)%float = true.
Proof.
  exact (proj2 (proj2 (proj2 (proj2 (proj2
           (bar_height_spec demo_mid demo_mid_reachable)))))).
Defined.

(** * More of the program: the grid, the frames and the main loop *)

Section Grid.

Context {G : Type} `{RandomSource G}.

Lemma make_die_fields (i : Z) (now : float) (g : G) :
  let d := fst (make_die i now g) in
  (dice_x d, dice_y d) = cell i
  /\ dice_size d = DICE_SIZE
  /\ update_interval d = interval i
  /\ last_update_time d = now.
Proof.
  unfold make_die, Dice_init, cell. destruct (randint 1 20 g) as [v g'].
  simpl. repeat split; reflexivity.
Qed.

Lemma cell_bounds (i : Z) :
  0 <= i < NUM_DICE ->
  240 <= fst (cell i) <= 690 /\ 55 <= snd (cell i) <= 505.
Proof.
  unfold cell, NUM_DICE, grid_start_x, grid_start_y, grid_height,
    BAR_CHART_WIDTH, DICE_AREA_MARGIN, WINDOW_HEIGHT, COLUMNS, ROWS,
    DICE_SIZE, SPACING.
  intros Hi. cbn [fst snd].
  change ((600 - (10 * 40 + (10 - 1) * 10)) / 2) with 55.
  pose proof (Z.mod_pos_bound i 10 ltac:(lia)).
  assert (0 <= i / 10 < 10)
    by (split; [apply Z.div_pos; lia | apply Z.div_lt_upper_bound; lia]).
  lia.
Qed.

Lemma cell_apart (i j : Z) :
  0 <= i < NUM_DICE -> 0 <= j < NUM_DICE -> i <> j ->
  fst (cell i) + DICE_SIZE + SPACING <= fst (cell j)
  \/ fst (cell j) + DICE_SIZE + SPACING <= fst (cell i)
  \/ snd (cell i) + DICE_SIZE + SPACING <= snd (cell j)
  \/ snd (cell j) + DICE_SIZE + SPACING <= snd (cell i).
Proof.
  unfold cell, NUM_DICE, grid_start_x, grid_start_y, grid_height,
    BAR_CHART_WIDTH, DICE_AREA_MARGIN, WINDOW_HEIGHT, COLUMNS, ROWS,
    DICE_SIZE, SPACING.
  intros Hi Hj Hij. cbn [fst snd].
  change ((600 - (10 * 40 + (10 - 1) * 10)) / 2) with 55.
  pose proof (Z.div_mod i 10 ltac:(lia)).
  pose proof (Z.div_mod j 10 ltac:(lia)).
  pose proof (Z.mod_pos_bound i 10 ltac:(lia)).
  pose proof (Z.mod_pos_bound j 10 ltac:(lia)).
  lia.
Qed.

(** The grid of lines 73-88.  Every die is a square of side [DICE_SIZE]
    at the cell of its index, inside the window, to the right of the
    region of the left bar and to the left of the right bar; two dice
    never overlap: they are at least [SPACING] apart along one axis; and
    the grid is centred between the top and the bottom of the window. *)
Theorem grid_layout (i j : Z) (now now' : float) (g g' : G) :
  0 <= i < NUM_DICE -> 0 <= j < NUM_DICE ->
  let a := fst (make_die i now g) in
  let b := fst (make_die j now' g') in
  (dice_size a = DICE_SIZE /\ dice_size b = DICE_SIZE
   /\ (dice_x a, dice_y a) = cell i /\ (dice_x b, dice_y b) = cell j)
  /\ (BAR_CHART_WIDTH + DICE_AREA_MARGIN <= dice_x a
      /\ dice_x a + DICE_SIZE <= RIGHT_BAR_X
      /\ RIGHT_BAR_X + BAR_WIDTH <= WINDOW_WIDTH
      /\ LEFT_BAR_X + BAR_WIDTH <= BAR_CHART_WIDTH
      /\ grid_start_y <= dice_y a
      /\ dice_y a + DICE_SIZE <= WINDOW_HEIGHT - grid_start_y)
  /\ (i <> j ->
      dice_x a + DICE_SIZE + SPACING <= dice_x b
      \/ dice_x b + DICE_SIZE + SPACING <= dice_x a
      \/ dice_y a + DICE_SIZE + SPACING <= dice_y b
      \/ dice_y b + DICE_SIZE + SPACING <= dice_y a)
  /\ (i = j -> (dice_x a, dice_y a) = (dice_x b, dice_y b)).
Proof.
  intros Hi Hj. cbv zeta.
  destruct (make_die_fields i now g) as (Ha & Hsa & _).
  destruct (make_die_fields j now' g') as (Hb & Hsb & _).
  pose proof (cell_bounds i Hi) as Hbi.
  rewrite <- Ha in Hbi. cbn [fst snd] in Hbi.
  split; [| split; [| split]].
  - repeat split; assumption.
  - unfold BAR_CHART_WIDTH, DICE_AREA_MARGIN, RIGHT_BAR_X, WINDOW_WIDTH,
      BAR_WIDTH, LEFT_BAR_X, WINDOW_HEIGHT, DICE_SIZE.
    change grid_start_y with 55. lia.
  - intros Hij. pose proof (cell_apart i j Hi Hj Hij) as Hap.
    rewrite <- Ha, <- Hb in Hap. cbn [fst snd] in Hap. exact Hap.
  - intros ->. now rewrite Ha, Hb.
Qed.

(** *** The dice list is never resized and the dice never move *)

Lemma fixed_assigned (d : Dice) (i : Z) :
  fixed_part d = assigned_part i ->
  (dice_x d, dice_y d) = cell i
  /\ dice_size d = DICE_SIZE
  /\ update_interval d = interval i.
Proof.
  unfold fixed_part, assigned_part. intros E.
  pose proof (f_equal (fun p => fst (fst (fst p))) E) as Hx.
  pose proof (f_equal (fun p => snd (fst (fst p))) E) as Hy.
  pose proof (f_equal (fun p => snd (fst p)) E) as Hsz.
  pose proof (f_equal snd E) as Hiv.
  cbn [fst snd] in Hx, Hy, Hsz, Hiv.
  rewrite (surjective_pairing (cell i)), Hx, Hy.
  repeat split; assumption.
Qed.

Lemma Dice_update_fixed (d : Dice) (t : float) (g : G) :
  fixed_part (fst (fst (Dice_update d t g))) = fixed_part d.
Proof.
  destruct (Dice_update_cases d t g) as [[_ ->] | [_ ->]]; reflexivity.
Qed.

Lemma visit_fixed (t : float) (d : Dice) (w : Globals G) :
  fixed_part (turn_die (visit t d w)) = fixed_part d.
Proof.
  destruct (visit_kind t d w) as [ | | d' g' _ E _ | d' g' _ E _];
    simpl; try reflexivity;
    pose proof (Dice_update_fixed d t (rng w)) as F;
    now rewrite E in F.
Qed.

Lemma for_dice_fixed (t : float) (todo : list Dice) :
  forall (i : nat) (w : Globals G),
    map fixed_part (fst (fst (for_dice t i todo w))) = map fixed_part todo.
Proof.
  induction todo as [|d rest IH]; intros i w; simpl; [reflexivity |].
  destruct (turn_break (visit t d w)); simpl.
  - now rewrite visit_fixed.
  - specialize (IH (S i) (turn_globals (visit t d w))).
    destruct (for_dice t (S i) rest (turn_globals (visit t d w)))
      as [[rest' w'] log]. simpl in *.
    now rewrite visit_fixed, IH.
Qed.

Lemma make_dice_fixed (clock : Z -> float) (indices : list Z) :
  forall g : G,
    map fixed_part (fst (make_dice clock indices g))
    = map assigned_part indices.
Proof.
  induction indices as [|i rest IH]; intros g; simpl; [reflexivity |].
  destruct (make_die_fields i (clock i) g) as (Hc & Hs & Hi & _).
  destruct (make_die i (clock i) g) as [d g1]. simpl in *.
  specialize (IH g1). destruct (make_dice clock rest g1) as [ds g2].
  simpl in *. rewrite IH. f_equal.
  unfold fixed_part, assigned_part. rewrite <- Hc, Hs, Hi. reflexivity.
Qed.

Lemma reachable_fixed (s : Sim G) :
  reachable s ->
  map fixed_part (dice_list s) = map assigned_part (range NUM_DICE).
Proof.
  induction 1 as [clock g | t s _ IH].
  - unfold initial.
    pose proof (make_dice_fixed clock (range NUM_DICE) g) as Hm.
    destruct (make_dice clock (range NUM_DICE) g) as [ds g']. exact Hm.
  - unfold step. destruct (simulation_active (globals s)) eqn:Hact.
    + rewrite step_active by assumption. simpl.
      now rewrite for_dice_fixed.
    + now rewrite step_inactive.
Qed.

Lemma range_nth (n : Z) (i : nat) :
  (i < Z.to_nat n)%nat -> nth_error (range n) i = Some (Z.of_nat i).
Proof.
  intros Hi. unfold range. rewrite nth_error_map.
  rewrite nth_error_seq.
  destruct (Nat.ltb_spec i (Z.to_nat n)); [reflexivity | lia].
Qed.

Lemma reachable_length (s : Sim G) :
  reachable s -> length (dice_list s) = Z.to_nat NUM_DICE.
Proof.
  intros Hs. pose proof (reachable_fixed s Hs) as Hfix.
  apply (f_equal (@length _)) in Hfix.
  rewrite !length_map in Hfix. rewrite Hfix. unfold range.
  now rewrite length_map, length_seq.
Qed.

(** In every state the program reaches [dice_list] has its [NUM_DICE]
    dice, and the die at index [i] has the cell, the size and the
    interval that the set-up gave to index [i]: a frame changes only
    [value] and [last_update_time]. *)
Theorem dice_list_fixed (s : Sim G) :
  reachable s ->
  length (dice_list s) = Z.to_nat NUM_DICE
  /\ (forall (i : nat) (d : Dice),
         nth_error (dice_list s) i = Some d ->
         (dice_x d, dice_y d) = cell (Z.of_nat i)
         /\ dice_size d = DICE_SIZE
         /\ update_interval d = interval (Z.of_nat i))
  /\ (forall t, map fixed_part (dice_list (step t s))
                = map fixed_part (dice_list s)).
Proof.
  intros Hs. pose proof (reachable_fixed s Hs) as Hfix.
  split; [| split].
  - now apply reachable_length.
  - intros i d Hd.
    assert (nth_error (map fixed_part (dice_list s)) i = Some (fixed_part d))
      as Hn by (rewrite nth_error_map, Hd; reflexivity).
    rewrite Hfix, nth_error_map in Hn.
    assert (i < Z.to_nat NUM_DICE)%nat as Hi.
    { assert (i < length (dice_list s))%nat as Hlt
          by (apply nth_error_Some; congruence).
      now rewrite (reachable_length s Hs) in Hlt. }
    rewrite (range_nth _ _ Hi) in Hn. cbn [option_map] in Hn.
    apply fixed_assigned. congruence.
  - intros t. rewrite (reachable_fixed _ (reachable_step t s Hs)).
    now rewrite Hfix.
Qed.

End Grid.

Section Frames.

Context {G : Type} `{RandomSource G}.

(** *** How much a frame can count *)

Lemma count_roll_buckets (d : Dice) (w : Globals G) (g' : G) :
  count_low w <= count_low (count_roll d w g')
  /\ count_high w <= count_high (count_roll d w g').
Proof.
  unfold count_roll. destruct (_ && _); simpl; lia.
Qed.

Lemma visit_grown (t : float) (d : Dice) (w : Globals G) :
  grown w (turn_globals (visit t d w)) 1.
Proof.
  unfold grown.
  destruct (visit_kind t d w) as [ | | d' g' _ _ _ | d' g' _ _ _]; simpl;
    try lia;
    pose proof (count_roll_buckets d' w g');
    rewrite ?count_roll_count; lia.
Qed.

Lemma for_dice_grown (t : float) (todo : list Dice) :
  forall (i : nat) (w : Globals G),
    grown w (snd (fst (for_dice t i todo w))) (Z.of_nat (length todo)).
Proof.
  induction todo as [|d rest IH]; intros i w.
  - simpl. unfold grown. lia.
  - pose proof (visit_grown t d w) as Hv.
    cbn [for_dice]. cbv zeta.
    destruct (turn_break (visit t d w)).
    + cbn [fst snd length]. unfold grown in *. lia.
    + specialize (IH (S i) (turn_globals (visit t d w))).
      destruct (for_dice t (S i) rest (turn_globals (visit t d w)))
        as [[rest' w'] log].
      cbn [fst snd length] in *. unfold grown in *. lia.
Qed.

Lemma step_grown (t : float) (s : Sim G) :
  grown (globals s) (globals (step t s)) (Z.of_nat (length (dice_list s))).
Proof.
  unfold step. destruct (simulation_active (globals s)) eqn:Hact.
  - rewrite step_active by assumption. cbn [fst globals].
    apply for_dice_grown.
  - rewrite step_inactive by assumption. cbn [fst]. unfold grown. lia.
Qed.

Lemma run_count (times : list float) :
  forall s : Sim G,
    reachable s ->
    global_roll_count (globals (run times s))
    <= global_roll_count (globals s) + NUM_DICE * Z.of_nat (length times).
Proof.
  induction times as [|t rest IH]; intros s Hs.
  - simpl. lia.
  - cbn [run length].
    pose proof (step_grown t s) as (Hc & _).
    pose proof (reachable_length s Hs) as Hlen.
    rewrite Hlen in Hc.
    specialize (IH (step t s) (reachable_step t s Hs)).
    assert (0 <= NUM_DICE) by (unfold NUM_DICE, COLUMNS, ROWS; lia).
    rewrite Z2Nat.id in Hc by assumption.
    rewrite Nat2Z.inj_succ. nia.
Qed.

(** A frame never lowers a counter and counts at most one roll for each
    die, [NUM_DICE] in all.  So [n] frames after the start the count is
    at most [100 * n], and a run that has finished took ten frames or
    more. *)
Theorem frame_counts (s : Sim G) (t : float) :
  reachable s ->
  (global_roll_count (globals s) <= global_roll_count (globals (step t s))
   /\ global_roll_count (globals (step t s))
      <= global_roll_count (globals s) + NUM_DICE
   /\ count_low (globals s) <= count_low (globals (step t s))
   /\ count_high (globals s) <= count_high (globals (step t s)))
  /\ (forall (clock : Z -> float) (g : G) (times : list float),
         global_roll_count (globals (run times (initial clock g)))
         <= 100 * Z.of_nat (length times)
         /\ (simulation_active (globals (run times (initial clock g))) = false
             -> (10 <= length times)%nat)).
Proof.
  intros Hs. split.
  - pose proof (step_grown t s) as (Hc & Hlo & Hhi).
    pose proof (reachable_length s Hs) as Hlen.
    rewrite Hlen in Hc.
    rewrite Z2Nat.id in Hc by (unfold NUM_DICE, COLUMNS, ROWS; lia).
    repeat split; lia.
  - intros clock g times.
    pose proof (run_count times _ (reachable_initial clock g)) as Hrun.
    assert (global_roll_count (globals (initial clock g)) = 0) as H0.
    { unfold initial.
      destruct (make_dice clock (range NUM_DICE) g); reflexivity. }
    rewrite H0 in Hrun. change NUM_DICE with 100 in Hrun.
    split; [lia |].
    intros Hoff.
    destruct (reachable_sim_ok _
                (run_reachable times _ (reachable_initial clock g)))
      as [_ (_ & _ & _ & _ & Hact)].
    rewrite Hoff in Hact. symmetry in Hact. apply Z.ltb_ge in Hact.
    unfold MAX_ROLLS in Hact. lia.
Qed.

(** *** Which dice a frame asks *)

Lemma visit_called_below (t : float) (d : Dice) (w : Globals G) :
  global_roll_count w < MAX_ROLLS ->
  turn_called (visit t d w) = true
  /\ (turn_break (visit t d w) = false ->
      global_roll_count (turn_globals (visit t d w)) < MAX_ROLLS).
Proof.
  intros Hlt.
  destruct (visit_kind t d w) as [ | | d' g' _ _ Hn | d' g' _ _ _]; simpl.
  - lia.
  - split; [reflexivity | intros _; assumption].
  - split; [reflexivity | intros _]. now rewrite count_roll_count.
  - split; [reflexivity | discriminate].
Qed.

Lemma for_dice_log (t : float) (todo : list Dice) :
  forall (i : nat) (w : Globals G),
    global_roll_count w < MAX_ROLLS ->
    simulation_active w = true ->
    exists n : nat,
      snd (for_dice t i todo w) = seq i n
      /\ (n <= length todo)%nat
      /\ (todo <> [] -> (1 <= n)%nat)
      /\ (simulation_active (snd (fst (for_dice t i todo w))) = true ->
          n = length todo).
Proof.
  induction todo as [|d rest IH]; intros i w Hlt Hon.
  - exists O. simpl. repeat split; try lia. congruence.
  - destruct (visit_called_below t d w Hlt) as [Hcalled Hnext].
    cbn [for_dice]. cbv zeta. rewrite Hcalled.
    destruct (turn_break (visit t d w)) eqn:Hbr.
    + destruct (visit_break t d w Hbr) as (_ & _ & Hoff & _).
      exists 1%nat. cbn [fst snd length seq].
      repeat split; try lia. rewrite Hoff. discriminate.
    + pose proof (visit_no_break t d w Hbr) as Hsame. rewrite Hon in Hsame.
      destruct (IH (S i) (turn_globals (visit t d w)) (Hnext eq_refl) Hsame)
        as (n & Hlog & Hn & _ & Hall).
      destruct (for_dice t (S i) rest (turn_globals (visit t d w)))
        as [[rest' w'] log].
      cbn [fst snd length] in *. exists (S n). subst log.
      repeat split; try lia.
      intros Hstill. f_equal. now apply Hall.
Qed.

(** *** A frame in which every die is due *)

Lemma visit_due (t : float) (d : Dice) (w : Globals G) :
  due t d = true ->
  global_roll_count w < MAX_ROLLS ->
  turn_rolled (visit t d w) = true
  /\ global_roll_count (turn_globals (visit t d w)) = global_roll_count w + 1
  /\ last_update_time (turn_die (visit t d w)) = t
  /\ (turn_break (visit t d w) = true
      <-> MAX_ROLLS <= global_roll_count w + 1).
Proof.
  unfold due. intros Hdue Hlt.
  pose proof (Dice_update_rolled d t (rng w) Hdue) as Hroll.
  destruct (visit_kind t d w) as [ | ? E | d' g' _ E Hn | d' g' _ E Hn];
    simpl.
  - lia.
  - rewrite Hroll in E. discriminate.
  - rewrite Hroll in E. injection E as <- _.
    rewrite count_roll_count. simpl.
    repeat split; try reflexivity; try discriminate. lia.
  - rewrite Hroll in E. injection E as <- _. simpl.
    repeat split; try reflexivity. intros _; assumption.
Qed.

Lemma for_dice_all_due (t : float) (todo : list Dice) :
  forall (i : nat) (w : Globals G),
    forallb (due t) todo = true ->
    global_roll_count w <= MAX_ROLLS ->
    global_roll_count (snd (fst (for_dice t i todo w)))
    = Z.min (global_roll_count w + Z.of_nat (length todo)) MAX_ROLLS.
Proof.
  induction todo as [|d rest IH]; intros i w Hdue Hle.
  - simpl. lia.
  - cbn [forallb] in Hdue. apply andb_prop in Hdue.
    destruct Hdue as [Hd Hrest].
    destruct (Z.eq_dec (global_roll_count w) MAX_ROLLS) as [Hfull | Hnot].
    + assert (visit t d w = mkTurn d w false false false) as Hv.
      { unfold visit.
        assert ((global_roll_count w <? MAX_ROLLS) = false) as ->
            by (apply Z.ltb_ge; lia).
        reflexivity. }
      cbn [for_dice]. cbv zeta. rewrite Hv. cbn [turn_break turn_globals].
      specialize (IH (S i) w Hrest Hle).
      destruct (for_dice t (S i) rest w) as [[rest' w'] log].
      cbn [fst snd length] in *. rewrite IH. lia.
    + destruct (visit_due t d w Hd ltac:(lia)) as (_ & Hc & _ & Hbr).
      cbn [for_dice]. cbv zeta.
      destruct (turn_break (visit t d w)) eqn:Ebr.
      * cbn [fst snd length]. rewrite Hc.
        pose proof (proj1 Hbr eq_refl). lia.
      * assert (global_roll_count w + 1 < MAX_ROLLS) as Hn.
        { destruct (Z_lt_le_dec (global_roll_count w + 1) MAX_ROLLS)
            as [? | Hge]; [assumption |].
          apply Hbr in Hge. discriminate. }
        specialize (IH (S i) (turn_globals (visit t d w)) Hrest
                       ltac:(rewrite Hc; lia)).
        destruct (for_dice t (S i) rest (turn_globals (visit t d w)))
          as [[rest' w'] log].
        cbn [fst snd length] in *. rewrite IH, Hc. lia.
Qed.

(** When every die is due at the time of a frame and the simulation is
    active, the frame re-rolls the dice one after the other until the
    list or the count is at its end: the count grows by [NUM_DICE], or to
    [MAX_ROLLS] if that is less. *)
Theorem frame_all_due (s : Sim G) (t : float) :
  reachable s ->
  simulation_active (globals s) = true ->
  forallb (due t) (dice_list s) = true ->
  global_roll_count (globals (step t s))
  = Z.min (global_roll_count (globals s) + NUM_DICE) MAX_ROLLS.
Proof.
  intros Hs Hon Hdue.
  destruct (reachable_sim_ok s Hs) as [_ (_ & _ & _ & Hcap & _)].
  pose proof (reachable_length s Hs) as Hlen.
  unfold step. rewrite step_active by assumption. cbn [fst globals].
  rewrite (for_dice_all_due t (dice_list s) 0 (globals s) Hdue Hcap).
  rewrite Hlen. rewrite Z2Nat.id by (unfold NUM_DICE, COLUMNS, ROWS; lia).
  reflexivity.
Qed.

End Frames.

(** * Edge cases of the clock *)

Module ClockEdges.

Lemma SFcompare_refl (x : spec_float) :
  x <> S754_nan -> SFcompare x x = Some Eq.
Proof.
  destruct x as [s|s| |s m e]; intros Hx; try congruence;
    destruct s; cbn; try reflexivity;
    rewrite Z.compare_refl;
    change (Pos.compare_cont Eq m m) with (m ?= m)%positive;
    now rewrite Pos.compare_refl.
Qed.

Lemma is_nan_spec (f : float) : is_nan f = true -> Prim2SF f = S754_nan.
Proof.
  unfold is_nan. rewrite FloatAxioms.eqb_spec. unfold SFeqb.
  intros Hn. destruct (Prim2SF f) as [s|s| |s m e] eqn:E; try reflexivity;
    rewrite SFcompare_refl in Hn by discriminate; discriminate.
Qed.

Lemma SFleb_nan_r (x : spec_float) : SFleb x S754_nan = false.
Proof. destruct x as [s|s| |s m e]; reflexivity. Qed.

Lemma SF64sub_nan_r (x : spec_float) : SF64sub x S754_nan = S754_nan.
Proof. destruct x as [s|s| |s m e]; reflexivity. Qed.

Lemma SF64sub_nan_l (y : spec_float) : SF64sub S754_nan y = S754_nan.
Proof. destruct y as [s|s| |s m e]; reflexivity. Qed.

Lemma SFltb_infinity_l (x : spec_float) :
  SFltb (S754_infinity false) x = false.
Proof. destruct x as [s|s| |s m e]; try destruct s; reflexivity. Qed.

(** No interval is reached by a difference with a NaN in it. *)
Lemma float_ge_nan (t l iv : float) :
  is_nan t = true \/ is_nan l = true -> float_ge (t - l)%float iv = false.
Proof.
  unfold float_ge. rewrite FloatAxioms.leb_spec, FloatAxioms.sub_spec.
  intros [Hn | Hn]; rewrite (is_nan_spec _ Hn).
  - now rewrite SF64sub_nan_l, SFleb_nan_r.
  - now rewrite SF64sub_nan_r, SFleb_nan_r.
Qed.

Lemma float_ltb_infinity (t : float) : (infinity <? t)%float = false.
Proof.
  rewrite FloatAxioms.ltb_spec.
  change (Prim2SF infinity) with (S754_infinity false).
  apply SFltb_infinity_l.
Qed.

End ClockEdges.

Section ClockEdgeCases.

Context {G : Type} `{RandomSource G}.

(** [update] on the floats that are not times.  A call whose time is a
    NaN never re-rolls, and a die whose [last_update_time] is a NaN is
    never re-rolled, whatever its interval.  A die with an interval above
    zero whose [last_update_time] is [+oo] is never re-rolled either. *)
Theorem update_clock_edges (d : Dice) :
  (forall (t : float) (g : G),
      is_nan t = true -> Dice_update d t g = (d, false, g))
  /\ (is_nan (last_update_time d) = true ->
      forall (t : float) (g : G), Dice_update d t g = (d, false, g))
  /\ ((0 <? update_interval d)%float = true ->
      last_update_time d = infinity ->
      forall (t : float) (g : G), Dice_update d t g = (d, false, g)).
Proof.
  split; [| split].
  - intros t g Hn. apply Dice_update_kept.
    apply ClockEdges.float_ge_nan. now left.
  - intros Hn t g. apply Dice_update_kept.
    apply ClockEdges.float_ge_nan. now right.
  - intros Hpos Hinf t g.
    pose proof (Dice_update_later d t g Hpos) as Hlater.
    destruct (Dice_update_cases d t g) as [[_ E] | [_ E]]; [| exact E].
    rewrite E in Hlater. specialize (Hlater eq_refl).
    rewrite Hinf, ClockEdges.float_ltb_infinity in Hlater. discriminate.
Qed.

(** Two calls of [update] with the same time: the second one returns
    false and changes nothing, whether the first one re-rolled or not
    (the interval of the die being above zero, as the program's are). *)
Theorem update_twice_same_time (d : Dice) (t : float) (g g' : G) :
  (0 <? update_interval d)%float = true ->
  let d1 := fst (fst (Dice_update d t g)) in
  Dice_update d1 t g' = (d1, false, g').
Proof.
  intros Hpos. cbv zeta.
  pose proof (Dice_update_interval d t g) as Hiv.
  destruct (Dice_update_cases d t g) as [[_ E] | [E0 E]];
    rewrite E in *; cbn [fst] in *.
  - set (d1 := mkDice _ _ _ _ _ _) in *.
    assert ((0 <? update_interval d1)%float = true) as Hpos1
        by (now rewrite Hiv).
    pose proof (Dice_update_later d1 t g' Hpos1) as Hlater.
    destruct (Dice_update_cases d1 t g') as [[_ E1] | [_ E1]]; [| exact E1].
    rewrite E1 in Hlater. specialize (Hlater eq_refl).
    change (last_update_time d1) with t in Hlater.
    pose proof (Binary64.float_ltb_asym t t Hlater) as Hno.
    rewrite Hlater in Hno. discriminate.
  - now apply Dice_update_kept.
Qed.

End ClockEdgeCases.

Section MainLoopProperties.

Context {G : Type} `{RandomSource G}.

Lemma poll_spec (events : list Event) (running : bool) :
  poll running events = running && negb (existsb is_QUIT events).
Proof.
  unfold poll. revert running.
  induction events as [|e rest IH]; intros running; simpl.
  - now rewrite andb_true_r.
  - rewrite IH. destruct (is_QUIT e), running; reflexivity.
Qed.

Lemma run_app (xs ys : list float) :
  forall s : Sim G, run (xs ++ ys) s = run ys (run xs s).
Proof.
  induction xs as [|x xs IH]; intros s; simpl; [reflexivity | apply IH].
Qed.

Lemma main_loop_running (inputs : list (float * list Event)) :
  forall s : Sim G,
    main_loop inputs s = None <-> forallb no_QUIT inputs = true.
Proof.
  induction inputs as [|[t evs] rest IH]; intros s; cbn [main_loop forallb].
  - split; reflexivity.
  - cbv zeta. rewrite poll_spec. cbn [andb]. unfold no_QUIT at 1.
    cbn [snd]. destruct (negb (existsb is_QUIT evs)); cbn [andb].
    + rewrite <- (IH (step t s)).
      destruct (main_loop rest (step t s)) as [[s' pics]|];
        split; congruence.
    + split; discriminate.
Qed.

(** The main loop is left by a [QUIT] event and by nothing else: with no
    [QUIT] in the frames it is still running after them, whether the
    simulation has finished or not.  When it is left, the frame that
    brought the first [QUIT] was carried out in full: the state is the
    one after the steps of all the frames up to it, that frame included,
    and one picture was drawn for each of them. *)
Theorem main_loop_exit (inputs : list (float * list Event)) (s : Sim G) :
  (main_loop inputs s = None <-> forallb no_QUIT inputs = true)
  /\ (forall (s' : Sim G) (pics : list Picture),
         main_loop inputs s = Some (s', pics) ->
         exists pre t evs post,
           inputs = pre ++ (t, evs) :: post
           /\ forallb no_QUIT pre = true
           /\ existsb is_QUIT evs = true
           /\ s' = step t (run (map fst pre) s)
           /\ pics = pictures (map fst pre ++ [t]) s).
Proof.
  split; [apply main_loop_running |].
  revert s. induction inputs as [|[t evs] rest IH]; intros s s' pics.
  - discriminate.
  - cbn [main_loop]. cbv zeta. rewrite poll_spec. cbn [andb].
    destruct (existsb is_QUIT evs) eqn:Eq; cbn [negb].
    + intros E. injection E as <- <-.
      exists [], t, evs, rest. repeat split; assumption.
    + destruct (main_loop rest (step t s)) as [[s'' pics'']|] eqn:Erest;
        [| discriminate].
      intros E. injection E as <- <-.
      destruct (IH (step t s) s'' pics'' Erest)
        as (pre & t' & evs' & post & -> & Hpre & Hq & -> & ->).
      exists ((t, evs) :: pre), t', evs', post.
      repeat split; try assumption.
      cbn [forallb]. unfold no_QUIT at 1. cbn [snd]. now rewrite Eq.
Qed.

(** *** What is drawn *)

Lemma bar_tops_bounded (count : Z) :
  0 <= count <= MAX_ROLLS ->
  exists h : float,
    bar_height count MAX_ROLLS BAR_MAX_HEIGHT = Some h
    /\ (float_of_int (BAR_BOTTOM - BAR_MAX_HEIGHT)
        <=? float_of_int BAR_BOTTOM - h)%float = true
    /\ (float_of_int BAR_BOTTOM - h <=? float_of_int BAR_BOTTOM)%float = true.
Proof.
  intros Hc.
  assert (forallb (fun c =>
            match bar_height c MAX_ROLLS BAR_MAX_HEIGHT with
            | Some h =>
                (float_of_int (BAR_BOTTOM - BAR_MAX_HEIGHT)
                 <=? float_of_int BAR_BOTTOM - h)%float
                && (float_of_int BAR_BOTTOM - h
                    <=? float_of_int BAR_BOTTOM)%float
            | None => false
            end) (range (MAX_ROLLS + 1)) = true) as Hall
      by (vm_compute; reflexivity).
  pose proof (range_forallb _ _ Hall count ltac:(lia)) as Hh. cbv beta in Hh.
  destruct (bar_height count MAX_ROLLS BAR_MAX_HEIGHT) as [h|];
    [| discriminate].
  apply andb_prop in Hh. exists h. intuition.
Qed.

(** The picture of a state the program reaches.  Both bars are drawn (no
    division fails), the left one at [LEFT_BAR_X] and the right one at
    [RIGHT_BAR_X], each [BAR_WIDTH] wide, with its top between
    [BAR_BOTTOM - BAR_MAX_HEIGHT] and [BAR_BOTTOM]; the labels are the two
    counters; and the end message is shown exactly when the count is
    [MAX_ROLLS].  Once the message is shown, the picture of every later
    frame is the same picture. *)
Theorem picture_spec (s : Sim G) :
  reachable s ->
  (exists lo hi : BarRect,
      low_bar (draw s) = Some lo /\ high_bar (draw s) = Some hi
      /\ bar_left lo = LEFT_BAR_X /\ bar_left hi = RIGHT_BAR_X
      /\ bar_width lo = BAR_WIDTH /\ bar_width hi = BAR_WIDTH
      /\ low_bar_height s = Some (bar_tall lo)
      /\ high_bar_height s = Some (bar_tall hi)
      /\ (float_of_int (BAR_BOTTOM - BAR_MAX_HEIGHT) <=? bar_top lo)%float
         = true
      /\ (bar_top lo <=? float_of_int BAR_BOTTOM)%float = true
      /\ (float_of_int (BAR_BOTTOM - BAR_MAX_HEIGHT) <=? bar_top hi)%float
         = true
      /\ (bar_top hi <=? float_of_int BAR_BOTTOM)%float = true)
  /\ low_label (draw s) + high_label (draw s) = global_roll_count (globals s)
  /\ (end_msg (draw s) = true <-> global_roll_count (globals s) = MAX_ROLLS)
  /\ (end_msg (draw s) = true ->
      forall times, draw (run times s) = draw s).
Proof.
  intros Hs.
  destruct (reachable_sim_ok s Hs) as [_ (Hsum & Hlo & Hhi & Hcap & Hact)].
  split; [| split; [| split]].
  - destruct (bar_tops_bounded (count_low (globals s)) ltac:(lia))
      as (hl & El & Hl1 & Hl2).
    destruct (bar_tops_bounded (count_high (globals s)) ltac:(lia))
      as (hh & Eh & Hh1 & Hh2).
    exists (bar_rect LEFT_BAR_X hl), (bar_rect RIGHT_BAR_X hh).
    unfold draw, low_bar_height, high_bar_height.
    rewrite El, Eh. cbn [option_map low_bar high_bar bar_rect bar_left
                         bar_width bar_tall bar_top].
    repeat split; assumption.
  - exact Hsum.
  - unfold draw. cbn [end_msg]. rewrite Hact.
    destruct (Z.ltb_spec (global_roll_count (globals s)) MAX_ROLLS);
      cbn [negb]; split; intros; try discriminate; try reflexivity; lia.
  - unfold draw at 1. cbn [end_msg]. intros Hend times.
    apply negb_true_iff in Hend. now rewrite run_finished.
Qed.

End MainLoopProperties.

(** * The further properties on the run *)

Lemma grid_layout_witness :
  let a := fst (make_die 0 0%float demo_script) in
  let b := fst (make_die 99 0%float demo_script) in
  (dice_size a = DICE_SIZE /\ dice_size b = DICE_SIZE
   /\ (dice_x a, dice_y a) = cell 0 /\ (dice_x b, dice_y b) = cell 99)
  /\ (dice_x a + DICE_SIZE + SPACING <= dice_x b
      \/ dice_x b + DICE_SIZE + SPACING <= dice_x a
      \/ dice_y a + DICE_SIZE + SPACING <= dice_y b
      \/ dice_y b + DICE_SIZE + SPACING <= dice_y a).
Proof.
  assert (0 <= 0 < NUM_DICE) as H0 by (unfold NUM_DICE, COLUMNS, ROWS; lia).
  assert (0 <= 99 < NUM_DICE) as H99 by (unfold NUM_DICE, COLUMNS, ROWS; lia).
  assert (0 <> 99) as Hne by discriminate.
  pose proof (grid_layout 0 99 0%float 0%float demo_script demo_script
                H0 H99) as Hgrid.
  cbv zeta in Hgrid. cbv zeta.
  destruct Hgrid as (Hsq & _ & Hapart & _).
  split; [exact Hsq | exact (Hapart Hne)].
Defined.

Lemma dice_list_fixed_witness :
  length (dice_list demo_end) = Z.to_nat NUM_DICE
  /\ map fixed_part (dice_list (step 11.5%float demo_end))
     = map fixed_part (dice_list demo_end).
Proof.
  destruct (dice_list_fixed demo_end demo_end_reachable) as (Hlen & _ & Hfix).
  split; [exact Hlen | exact (Hfix 11.5%float)].
Defined.

Lemma frame_counts_witness :
  global_roll_count (globals demo_mid)
  <= global_roll_count (globals (step 10.5%float demo_mid))
  /\ global_roll_count (globals (step 10.5%float demo_mid))
     <= global_roll_count (globals demo_mid) + NUM_DICE.
Proof.
  destruct (frame_counts demo_mid 10.5%float demo_mid_reachable)
    as ((Hlo & Hhi & _) & _).
  split; [exact Hlo | exact Hhi].
Defined.

Lemma frame_all_due_witness :
  global_roll_count (globals (step 10.5%float demo_mid))
  = Z.min (global_roll_count (globals demo_mid) + NUM_DICE) MAX_ROLLS.
Proof.
  assert (simulation_active (globals demo_mid) = true) as Hon
      by (vm_compute; reflexivity).
  assert (forallb (due 10.5%float) (dice_list demo_mid) = true) as Hdue
      by (vm_compute; reflexivity).
  exact (frame_all_due demo_mid 10.5%float demo_mid_reachable Hon Hdue).
Defined.

Lemma update_clock_edges_witness :
  Dice_update sample_die nan [7] = (sample_die, false, [7]).
Proof.
  assert (is_nan nan = true) as Hn by (vm_compute; reflexivity).
  exact (proj1 (update_clock_edges sample_die) nan [7] Hn).
Defined.

Lemma update_twice_same_time_witness :
  let d1 := fst (fst (Dice_update sample_die 10.0%float [7])) in
  Dice_update d1 10.0%float [12] = (d1, false, [12]).
Proof.
  assert ((0 <? update_interval sample_die)%float = true) as Hpos
      by (vm_compute; reflexivity).
  exact (update_twice_same_time sample_die 10.0%float [7] [12] Hpos).
Defined.

Lemma main_loop_exit_witness :
  main_loop [(11.5%float, [OtherEvent 768]); (12.5%float, [])] demo_end = None.
Proof.
  assert (forallb no_QUIT [(11.5%float, [OtherEvent 768]); (12.5%float, [])]
          = true) as Hq by reflexivity.
  exact (proj2 (proj1 (main_loop_exit
                         [(11.5%float, [OtherEvent 768]); (12.5%float, [])]
                         demo_end)) Hq).
Defined.

Lemma picture_spec_witness :
  low_label (draw demo_end) + high_label (draw demo_end)
  = global_roll_count (globals demo_end)
  /\ (end_msg (draw demo_end) = true
      <-> global_roll_count (globals demo_end) = MAX_ROLLS).
Proof.
  destruct (picture_spec demo_end demo_end_reachable) as (_ & Hsum & Hend & _).
  split; [exact Hsum | exact Hend].
Defined.

(** The loop on frames with a [QUIT] in the second one: it stops there,
    after the step of that frame, having re-rolled every die twice. *)
Lemma main_loop_demo :
  option_map
    (fun r => (global_roll_count (globals (fst r)), length (snd r)))
    (main_loop [(1.0%float, []); (2.0%float, [OtherEvent 768; QUIT]);
                (3.0%float, [])] demo_start)
  = Some (200, 2%nat).
Proof. vm_compute. reflexivity. Qed.

(** * The count and the dice that were re-rolled *)

Section Accounting.

Context {G : Type} `{RandomSource G}.

Lemma advanced_same (l : list Dice) : filter advanced (combine l l) = [].
Proof.
  induction l as [|d l IH]; [reflexivity |].
  cbn [combine filter]. unfold advanced at 1. cbn [fst snd].
  destruct (last_update_time d <? last_update_time d)%float eqn:E;
    [| exact IH].
  pose proof (Binary64.float_ltb_asym _ _ E) as Hno.
  rewrite E in Hno. discriminate.
Qed.

Lemma visit_accounted (t : float) (d : Dice) (w : Globals G) :
  (0 <? update_interval d)%float = true ->
  (turn_rolled (visit t d w) = true ->
   advanced (d, turn_die (visit t d w)) = true
   /\ global_roll_count (turn_globals (visit t d w))
      = global_roll_count w + 1)
  /\ (turn_rolled (visit t d w) = false ->
      turn_die (visit t d w) = d /\ turn_globals (visit t d w) = w
      /\ turn_break (visit t d w) = false).
Proof.
  intros Hpos.
  pose proof (Dice_update_later d t (rng w) Hpos) as Hlater.
  destruct (visit_kind t d w) as [ | | d' g' _ E _ | d' g' _ E _];
    cbn [turn_rolled turn_die turn_globals turn_break global_roll_count];
    try (split; [discriminate | intros _; repeat split; reflexivity]).
  - split; [intros _ | discriminate].
    rewrite E in Hlater. specialize (Hlater eq_refl).
    destruct (Dice_update_cases d t (rng w)) as [[_ E'] | [_ E']];
      rewrite E' in E; [| discriminate].
    injection E as <- _. unfold advanced. cbn [fst snd last_update_time].
    split; [exact Hlater | apply count_roll_count].
  - split; [intros _ | discriminate].
    rewrite E in Hlater. specialize (Hlater eq_refl).
    destruct (Dice_update_cases d t (rng w)) as [[_ E'] | [_ E']];
      rewrite E' in E; [| discriminate].
    injection E as <- _. unfold advanced. cbn [fst snd last_update_time].
    split; [exact Hlater | reflexivity].
Qed.

Lemma for_dice_accounted (t : float) (todo : list Dice) :
  forall (i : nat) (w : Globals G),
    Forall (fun d => (0 <? update_interval d)%float = true) todo ->
    global_roll_count (snd (fst (for_dice t i todo w))) - global_roll_count w
    = Z.of_nat (length (filter advanced
                          (combine todo (fst (fst (for_dice t i todo w))))))
    /\ (global_roll_count (snd (fst (for_dice t i todo w)))
        = global_roll_count w ->
        fst (fst (for_dice t i todo w)) = todo
        /\ snd (fst (for_dice t i todo w)) = w).
Proof.
  induction todo as [|d rest IH]; intros i w Hpos.
  - simpl. split; [lia | intros _; split; reflexivity].
  - inversion Hpos as [|? ? Hd Hrest]; subst.
    destruct (visit_accounted t d w Hd) as [Hroll Hkeep].
    pose proof (visit_grown t d w) as (Hgrow & _).
    pose proof (for_dice_grown t rest (S i) (turn_globals (visit t d w)))
      as (Hgrow' & _).
    specialize (IH (S i) (turn_globals (visit t d w)) Hrest).
    cbn [for_dice]. cbv zeta.
    destruct (turn_break (visit t d w)) eqn:Hbr.
    + destruct (turn_rolled (visit t d w)) eqn:Hr.
      * destruct (Hroll eq_refl) as [Hadv Hc].
        cbn [fst snd combine filter]. rewrite Hadv, advanced_same.
        cbn [length]. split; [lia | intros Heq; lia].
      * destruct (Hkeep eq_refl) as (_ & _ & Hnb). congruence.
    + destruct (for_dice t (S i) rest (turn_globals (visit t d w)))
        as [[rest' w'] log].
      cbn [fst snd combine filter] in *.
      destruct IH as [IHn IHsame].
      destruct (turn_rolled (visit t d w)) eqn:Hr.
      * destruct (Hroll eq_refl) as [Hadv Hc].
        rewrite Hadv. cbn [length]. split; [lia | intros Heq; lia].
      * destruct (Hkeep eq_refl) as (Hdie & Hw & _).
        rewrite Hdie, Hw in *.
        assert (advanced (d, d) = false) as ->.
        { pose proof (advanced_same [d]) as Hs. cbn [combine filter] in Hs.
          destruct (advanced (d, d)); [discriminate | reflexivity]. }
        split; [exact IHn |].
        intros Heq. destruct (IHsame Heq) as [-> ->]. split; reflexivity.
Qed.

(** What a frame counts is what it re-rolled: in a state the program
    reaches, the count grows in a frame by the number of dice whose
    [last_update_time] went forward in it.  And a frame that counts
    nothing changes nothing: not a die, not a counter, not the
    generator. *)
Theorem rolls_accounted (s : Sim G) (t : float) :
  reachable s ->
  global_roll_count (globals (step t s)) - global_roll_count (globals s)
  = Z.of_nat (length (filter advanced
                        (combine (dice_list s) (dice_list (step t s)))))
  /\ (global_roll_count (globals (step t s)) = global_roll_count (globals s)
      -> step t s = s).
Proof.
  intros Hs. unfold step.
  destruct (simulation_active (globals s)) eqn:Hact.
  - rewrite step_active by assumption. cbn [fst dice_list globals].
    assert (Forall (fun d => (0 <? update_interval d)%float = true)
                   (dice_list s)) as Hpos.
    { apply Forall_forall. intros d Hd.
      now apply (reachable_interval_positive s d Hs). }
    destruct (for_dice_accounted t (dice_list s) 0 (globals s) Hpos)
      as [Hn Hsame].
    split; [exact Hn |].
    intros Heq. destruct (Hsame Heq) as [Hd Hw]. rewrite Hd, Hw.
    destruct s; reflexivity.
  - rewrite step_inactive by assumption. cbn [fst].
    rewrite advanced_same. split; [simpl; lia | reflexivity].
Qed.

End Accounting.

Lemma rolls_accounted_witness :
  global_roll_count (globals (step 10.5%float demo_mid))
  - global_roll_count (globals demo_mid)
  = Z.of_nat (length (filter advanced
                        (combine (dice_list demo_mid)
                                 (dice_list (step 10.5%float demo_mid)))))
  /\ step 0.1%float demo_start = demo_start.
Proof.
  split.
  - exact (proj1 (rolls_accounted demo_mid 10.5%float demo_mid_reachable)).
  - apply (rolls_accounted demo_start 0.1%float
             (reachable_initial demo_clock demo_script)).
    vm_compute. reflexivity.
Defined.

(** On the run: the frame at 10.5 re-rolled 62 dice, and a frame at 9.2
    from the start is not idle. *)
Lemma rolls_accounted_demo :
  length (filter advanced
            (combine (dice_list demo_mid)
                     (dice_list (step 10.5%float demo_mid)))) = 62%nat
  /\ step 9.2%float demo_start <> demo_start.
Proof.
  split; [vm_compute; reflexivity |].
  intros E. apply (f_equal (fun s => global_roll_count (globals s))) in E.
  vm_compute in E. discriminate.
Qed.

(** * The counters and the dice that were re-rolled *)

Section Tallies.

Context {G : Type} `{RandomSource G}.

Lemma tally_cons {A : Type} (f : A -> bool) (x : A) (l : list A) :
  tally f (x :: l) = (if f x then 1 else 0) + tally f l.
Proof.
  unfold tally. cbn [filter]. destruct (f x); cbn [length]; lia.
Qed.

Lemma advanced_refl (d : Dice) : advanced (d, d) = false.
Proof.
  unfold advanced. cbn [fst snd].
  destruct (last_update_time d <? last_update_time d)%float eqn:E;
    [| reflexivity].
  pose proof (Binary64.float_ltb_asym _ _ E) as Hno. congruence.
Qed.

Lemma tally_same (f : Dice * Dice -> bool) (l : list Dice) :
  (forall d, f (d, d) = false) -> tally f (combine l l) = 0.
Proof.
  intros Hf. induction l as [|d l IH]; [reflexivity |].
  cbn [combine]. rewrite tally_cons, Hf, IH. reflexivity.
Qed.

Lemma low_roll_refl (d : Dice) : low_roll (d, d) = false.
Proof. unfold low_roll. now rewrite advanced_refl. Qed.

Lemma high_roll_refl (d : Dice) : high_roll (d, d) = false.
Proof. unfold high_roll. now rewrite advanced_refl. Qed.

(** A turn of the loop, told from what [Dice.update] returns. *)
Lemma visit_on_update (t : float) (d : Dice) (w : Globals G) :
  global_roll_count w < MAX_ROLLS ->
  (snd (fst (Dice_update d t (rng w))) = true ->
   turn_die (visit t d w) = fst (fst (Dice_update d t (rng w)))
   /\ turn_rolled (visit t d w) = true
   /\ global_roll_count (turn_globals (visit t d w))
      = global_roll_count w + 1
   /\ count_low (turn_globals (visit t d w))
      = count_low (count_roll (fst (fst (Dice_update d t (rng w)))) w
                              (snd (Dice_update d t (rng w))))
   /\ count_high (turn_globals (visit t d w))
      = count_high (count_roll (fst (fst (Dice_update d t (rng w)))) w
                               (snd (Dice_update d t (rng w))))
   /\ rng (turn_globals (visit t d w)) = snd (Dice_update d t (rng w)))
  /\ (snd (fst (Dice_update d t (rng w))) = false ->
      visit t d w = mkTurn d w true false false).
Proof.
  intros Hlt. unfold visit.
  assert ((global_roll_count w <? MAX_ROLLS) = true) as ->
      by now apply Z.ltb_lt.
  destruct (Dice_update_cases d t (rng w)) as [[_ E] | [_ E]]; rewrite E;
    cbn [fst snd].
  - split; [intros _ | discriminate].
    destruct (global_roll_count (count_roll _ w _) >=? MAX_ROLLS);
      cbn [turn_die turn_rolled turn_globals global_roll_count count_low
           count_high rng];
      rewrite ?count_roll_count, ?count_roll_rng; repeat split; reflexivity.
  - split; [discriminate | reflexivity].
Qed.

Lemma visit_buckets (t : float) (d : Dice) (w : Globals G) :
  face d ->
  turn_rolled (visit t d w) = true ->
  (value (turn_die (visit t d w)) <= 13
   /\ count_low (turn_globals (visit t d w)) = count_low w + 1
   /\ count_high (turn_globals (visit t d w)) = count_high w)
  \/ (14 <= value (turn_die (visit t d w))
      /\ count_low (turn_globals (visit t d w)) = count_low w
      /\ count_high (turn_globals (visit t d w)) = count_high w + 1).
Proof.
  intros Hd.
  pose proof (Dice_update_face d t (rng w) Hd) as F.
  destruct (visit_kind t d w) as [ | | d' g' _ E _ | d' g' _ E _];
    cbn [turn_rolled turn_die turn_globals count_low count_high];
    try discriminate; intros _; rewrite E in F; cbn [fst] in F;
    destruct (count_roll_spec d' w g' F) as (_ & _ & _ & Hb); exact Hb.
Qed.

Lemma for_dice_tallied (t : float) (todo : list Dice) :
  forall (i : nat) (w : Globals G),
    Forall (fun d => (0 <? update_interval d)%float = true) todo ->
    Forall face todo ->
    global_roll_count (snd (fst (for_dice t i todo w)))
    = global_roll_count w
      + tally advanced (combine todo (fst (fst (for_dice t i todo w))))
    /\ count_low (snd (fst (for_dice t i todo w)))
       = count_low w
         + tally low_roll (combine todo (fst (fst (for_dice t i todo w))))
    /\ count_high (snd (fst (for_dice t i todo w)))
       = count_high w
         + tally high_roll (combine todo (fst (fst (for_dice t i todo w)))).
Proof.
  induction todo as [|d rest IH]; intros i w Hpos Hfaces.
  - cbn. unfold tally. cbn. lia.
  - inversion Hpos as [|? ? Hd Hrest]; subst.
    inversion Hfaces as [|? ? Hf Hfrest]; subst.
    destruct (visit_accounted t d w Hd) as [Hroll Hkeep].
    pose proof (visit_buckets t d w Hf) as Hbuckets.
    assert (tally advanced (combine [d] [turn_die (visit t d w)])
            = global_roll_count (turn_globals (visit t d w))
              - global_roll_count w
            /\ tally low_roll (combine [d] [turn_die (visit t d w)])
               = count_low (turn_globals (visit t d w)) - count_low w
            /\ tally high_roll (combine [d] [turn_die (visit t d w)])
               = count_high (turn_globals (visit t d w)) - count_high w)
      as Hhead.
    { cbn [combine]. rewrite !tally_cons. unfold tally. cbn [filter length].
      unfold low_roll, high_roll. cbn [snd].
      destruct (turn_rolled (visit t d w)) eqn:Hr.
      - destruct (Hroll eq_refl) as [-> Hc].
        destruct (Hbuckets eq_refl) as [(Hv & Hl & Hh) | (Hv & Hl & Hh)];
          cbn [andb].
        + assert ((value (turn_die (visit t d w)) <=? 13) = true) as ->
              by (apply Z.leb_le; lia).
          assert ((14 <=? value (turn_die (visit t d w))) = false) as ->
              by (apply Z.leb_gt; lia).
          lia.
        + assert ((value (turn_die (visit t d w)) <=? 13) = false) as ->
              by (apply Z.leb_gt; lia).
          assert ((14 <=? value (turn_die (visit t d w))) = true) as ->
              by (apply Z.leb_le; lia).
          lia.
      - destruct (Hkeep eq_refl) as (-> & -> & _).
        rewrite advanced_refl. cbn [andb]. lia. }
    cbn [combine] in Hhead. rewrite !tally_cons in Hhead.
    change (tally advanced []) with 0 in Hhead.
    change (tally low_roll []) with 0 in Hhead.
    change (tally high_roll []) with 0 in Hhead.
    destruct Hhead as (Ha & Hl & Hh).
    specialize (IH (S i) (turn_globals (visit t d w)) Hrest Hfrest).
    cbn [for_dice]. cbv zeta.
    destruct (turn_break (visit t d w)).
    + cbn [fst snd combine]. rewrite !tally_cons.
      rewrite (tally_same advanced rest advanced_refl),
        (tally_same low_roll rest low_roll_refl),
        (tally_same high_roll rest high_roll_refl).
      lia.
    + destruct (for_dice t (S i) rest (turn_globals (visit t d w)))
        as [[rest' w'] log].
      cbn [fst snd combine] in *. rewrite !tally_cons. lia.
Qed.

(** C2. In every state the program reaches, [count_low + count_high] is
    [global_roll_count].  In a turn of the loop below the cap, when
    [Dice.update] returns true the die of the turn is the re-rolled die,
    [global_roll_count] grows by one and so does exactly one of the two
    counters, [count_low] when the new value is at most 13 and
    [count_high] when it is at least 14; when [Dice.update] returns false
    the turn changes nothing, and at the cap [update] is not called and
    the turn changes nothing.  Over a frame, the count grows by the
    number of dice that were re-rolled, [count_low] by the number of
    those that show 13 or less and [count_high] by the number of those
    that show 14 or more; a frame in which the simulation is not active
    leaves the counters. *)
Theorem tally_sum (s : Sim G) :
  reachable s ->
  count_low (globals s) + count_high (globals s)
    = global_roll_count (globals s)
  /\ (forall t (d : Dice) (w : Globals G),
      face d ->
      let u := Dice_update d t (rng w) in
      let r := visit t d w in
      let w' := turn_globals r in
      (global_roll_count w < MAX_ROLLS -> snd (fst u) = true ->
       turn_die r = fst (fst u)
       /\ rng w' = snd u
       /\ global_roll_count w' = global_roll_count w + 1
       /\ ((value (fst (fst u)) <= 13
            /\ count_low w' = count_low w + 1
            /\ count_high w' = count_high w)
           \/ (14 <= value (fst (fst u))
               /\ count_low w' = count_low w
               /\ count_high w' = count_high w + 1)))
      /\ (global_roll_count w < MAX_ROLLS -> snd (fst u) = false ->
          turn_die r = d /\ w' = w)
      /\ (MAX_ROLLS <= global_roll_count w ->
          turn_called r = false /\ turn_die r = d /\ w' = w))
  /\ (forall t,
         global_roll_count (globals (step t s))
         = global_roll_count (globals s)
           + tally advanced (combine (dice_list s) (dice_list (step t s)))
         /\ count_low (globals (step t s))
            = count_low (globals s)
              + tally low_roll (combine (dice_list s) (dice_list (step t s)))
         /\ count_high (globals (step t s))
            = count_high (globals s)
              + tally high_roll
                  (combine (dice_list s) (dice_list (step t s))))
  /\ (forall t, simulation_active (globals s) = false ->
      globals (step t s) = globals s).
Proof.
  intros Hs. destruct (reachable_sim_ok s Hs) as [Hf (Hsum & _)].
  split; [exact Hsum | split; [| split]].
  - intros t d w Hd. cbv zeta. split; [| split].
    + intros Hlt Hret.
      destruct (visit_on_update t d w Hlt) as [Hon _].
      destruct (Hon Hret) as (Hdie & _ & Hc & Hl & Hh & Hg).
      pose proof (Dice_update_face d t (rng w) Hd) as F.
      destruct (count_roll_spec _ w (snd (Dice_update d t (rng w))) F)
        as (_ & _ & _ & Hb).
      rewrite Hl, Hh. repeat split; assumption.
    + intros Hlt Hret.
      destruct (visit_on_update t d w Hlt) as [_ Hoff].
      rewrite (Hoff Hret). split; reflexivity.
    + intros Hge. unfold visit.
      assert ((global_roll_count w <? MAX_ROLLS) = false) as ->
          by now apply Z.ltb_ge.
      repeat split; reflexivity.
  - intros t. unfold step.
    destruct (simulation_active (globals s)) eqn:Hact.
    + rewrite step_active by assumption. cbn [fst dice_list globals].
      apply for_dice_tallied; [| exact Hf].
      apply Forall_forall. intros d Hd.
      now apply (reachable_interval_positive s d Hs).
    + rewrite step_inactive by assumption. cbn [fst].
      rewrite (tally_same advanced _ advanced_refl),
        (tally_same low_roll _ low_roll_refl),
        (tally_same high_roll _ high_roll_refl).
      repeat split; lia.
  - intros t Hoff. unfold step. now rewrite step_inactive.
Qed.

End Tallies.

(** * The die that reaches the cap *)

Section CapDie.

Context {G : Type} `{RandomSource G}.

Lemma firstn_snoc {A : Type} (pre : list A) (d : A) (rest : list A) :
  firstn (S (length pre)) (pre ++ d :: rest) = pre ++ [d].
Proof.
  induction pre as [|x pre IH]; cbn [length app firstn].
  - reflexivity.
  - f_equal. exact IH.
Qed.

Lemma skipn_snoc {A : Type} (pre : list A) (d : A) (rest : list A) :
  skipn (S (length pre)) (pre ++ d :: rest) = rest.
Proof.
  induction pre as [|x pre IH]; cbn [length app skipn].
  - reflexivity.
  - exact IH.
Qed.

Lemma combine_snoc {A B : Type} (pre : list A) (pre' : list B) (d : A)
  (d' : B) :
  length pre' = length pre ->
  combine (pre ++ [d]) (pre' ++ [d']) = combine pre pre' ++ [(d, d')].
Proof.
  revert pre'. induction pre as [|x pre IH]; intros [|y pre'] Hlen;
    cbn [length] in Hlen; try discriminate; cbn [app combine].
  - reflexivity.
  - f_equal. apply IH. lia.
Qed.

Lemma tally_app {A : Type} (f : A -> bool) (l l' : list A) :
  tally f (l ++ l') = tally f l + tally f l'.
Proof. unfold tally. rewrite filter_app, length_app. lia. Qed.

Lemma visit_rolled_time (t : float) (d : Dice) (w : Globals G) :
  turn_rolled (visit t d w) = true ->
  last_update_time (turn_die (visit t d w)) = t.
Proof.
  destruct (visit_kind t d w) as [ | | d' g' _ E _ | d' g' _ E _];
    cbn [turn_rolled turn_die]; try discriminate; intros _;
    destruct (Dice_update_cases d t (rng w)) as [[_ E'] | [_ E']];
    rewrite E' in E; try discriminate; injection E as <- _; reflexivity.
Qed.

(** The loop left with the flag cleared.  The list splits at the die
    [d] at which the loop broke: before it are the dice the loop went
    through, [d] itself was re-rolled at this time and its roll filled
    the count, [update] was called on the dice up to [d] and on no other,
    and the dice after [d] are the ones the loop was given. *)
Lemma for_dice_stop (t : float) (todo : list Dice) :
  forall (i : nat) (w : Globals G),
    Forall (fun d => (0 <? update_interval d)%float = true) todo ->
    global_roll_count w < MAX_ROLLS ->
    simulation_active w = true ->
    simulation_active (snd (fst (for_dice t i todo w))) = false ->
    exists (pre pre' : list Dice) (d d' : Dice) (rest : list Dice),
      todo = pre ++ d :: rest
      /\ fst (fst (for_dice t i todo w)) = pre' ++ d' :: rest
      /\ length pre' = length pre
      /\ snd (for_dice t i todo w) = seq i (S (length pre))
      /\ advanced (d, d') = true
      /\ last_update_time d' = t
      /\ global_roll_count w + tally advanced (combine pre pre') + 1
         = global_roll_count (snd (fst (for_dice t i todo w)))
      /\ MAX_ROLLS <= global_roll_count (snd (fst (for_dice t i todo w))).
Proof.
  induction todo as [|d0 rest0 IH]; intros i w Hpos Hlt Hon Hoff.
  - cbn in Hoff. congruence.
  - inversion Hpos as [|? ? Hd Hrest]; subst.
    destruct (visit_accounted t d0 w Hd) as [Hroll Hkeep].
    destruct (visit_called_below t d0 w Hlt) as [Hcalled Hnext].
    cbn [for_dice] in *. cbv zeta in *. rewrite Hcalled in *.
    destruct (turn_break (visit t d0 w)) eqn:Hbr.
    + destruct (visit_break t d0 w Hbr) as (_ & Hr & _ & Hfull & Hc).
      destruct (Hroll Hr) as [Hadv _].
      exists [], [], d0, (turn_die (visit t d0 w)), rest0.
      cbn [fst snd app length combine seq].
      change (tally advanced []) with 0.
      repeat split; try assumption; try lia.
      now apply visit_rolled_time.
    + pose proof (visit_no_break t d0 w Hbr) as Hsame. rewrite Hon in Hsame.
      specialize (IH (S i) (turn_globals (visit t d0 w)) Hrest
                     (Hnext eq_refl) Hsame).
      destruct (for_dice t (S i) rest0 (turn_globals (visit t d0 w)))
        as [[rest' w'] log].
      cbn [fst snd] in *.
      destruct (IH Hoff)
        as (pre & pre' & d & d' & rest & Htodo & Hds & Hlen & Hlog & Hadv
            & Htime & Hcount & Hfull).
      exists (d0 :: pre), (turn_die (visit t d0 w) :: pre'), d, d', rest.
      subst rest0 rest' log. cbn [app length combine seq].
      rewrite tally_cons.
      repeat split; try assumption; try (f_equal; assumption).
      destruct (turn_rolled (visit t d0 w)) eqn:Hr.
      * destruct (Hroll eq_refl) as [Ha Hc]. rewrite Ha. lia.
      * destruct (Hkeep eq_refl) as (Hdie & Hw & _).
        rewrite Hdie, advanced_refl. rewrite Hw in Hcount. lia.
Qed.

(** C5. When a frame that starts active ends with the flag cleared, the
    list of dice splits at the die whose re-roll reached the cap.  That
    die was re-rolled in this frame, at the time of the frame, and with
    its roll the count is [MAX_ROLLS]: the count before the frame, the
    re-rolls of the dice before it and its own add up to the cap.
    [update] was called on the dice up to it, in order, and on no die
    after it, and every die after it is the die it was before the frame,
    with its value and its [last_update_time]. *)
Theorem frozen_at_cap (s : Sim G) (t : float) :
  reachable s ->
  simulation_active (globals s) = true ->
  simulation_active (globals (step t s)) = false ->
  global_roll_count (globals (step t s)) = MAX_ROLLS
  /\ exists (pre pre' : list Dice) (d d' : Dice) (rest : list Dice),
      dice_list s = pre ++ d :: rest
      /\ dice_list (step t s) = pre' ++ d' :: rest
      /\ length pre' = length pre
      /\ step_log t s = seq 0 (S (length pre))
      /\ advanced (d, d') = true
      /\ last_update_time d' = t
      /\ global_roll_count (globals s)
         + tally advanced (combine pre pre') + 1 = MAX_ROLLS
      /\ (forall j, (length pre < j)%nat ->
          nth_error (dice_list (step t s)) j = nth_error (dice_list s) j).
Proof.
  intros Hs Hon Hoff.
  destruct (reachable_sim_ok s Hs) as [_ (_ & _ & _ & _ & Hact)].
  destruct (reachable_sim_ok _ (reachable_step t s Hs))
    as [_ (_ & _ & _ & Hcap & _)].
  rewrite Hon in Hact. symmetry in Hact. apply Z.ltb_lt in Hact.
  assert (Forall (fun d => (0 <? update_interval d)%float = true)
                 (dice_list s)) as Hpos.
  { apply Forall_forall. intros d Hd.
    now apply (reachable_interval_positive s d Hs). }
  unfold step, step_log in *. rewrite step_active in * by assumption.
  cbn [fst snd dice_list globals] in *.
  destruct (for_dice_stop t (dice_list s) 0 (globals s) Hpos Hact Hon Hoff)
    as (pre & pre' & d & d' & rest & Htodo & Hds & Hlen & Hlog & Hadv
        & Htime & Hcount & Hfull).
  split; [lia |].
  exists pre, pre', d, d', rest.
  repeat split; try assumption; try lia.
  intros j Hj. rewrite Hds, Htodo.
  rewrite !nth_error_app2 by lia. rewrite Hlen.
  destruct (j - length pre)%nat eqn:E; [lia | reflexivity].
Qed.

(** In a frame that starts active, [update] is called on the dice in the
    order of the list, without a gap, from the first die on.  When the
    frame ends active it is called on all of them.  When the frame ends
    finished it is called on the first [n] dice, where die [n - 1] is
    the one whose roll reached the cap: that die was re-rolled in this
    frame, the count before the frame and the re-rolls among the first
    [n] dice add up to [MAX_ROLLS], and the dice from [n] on are as they
    were.  In a frame that starts finished it is called on no die. *)
Theorem update_call_order (s : Sim G) (t : float) :
  reachable s ->
  (simulation_active (globals s) = true ->
   exists n : nat,
     step_log t s = seq 0 n
     /\ (1 <= n <= length (dice_list s))%nat
     /\ (simulation_active (globals (step t s)) = true ->
         n = length (dice_list s))
     /\ (simulation_active (globals (step t s)) = false ->
         (exists d d' : Dice,
             nth_error (dice_list s) (n - 1) = Some d
             /\ nth_error (dice_list (step t s)) (n - 1) = Some d'
             /\ advanced (d, d') = true)
         /\ global_roll_count (globals s)
            + tally advanced
                (combine (firstn n (dice_list s))
                         (firstn n (dice_list (step t s))))
            = MAX_ROLLS
         /\ skipn n (dice_list (step t s)) = skipn n (dice_list s)))
  /\ (simulation_active (globals s) = false -> step_log t s = []).
Proof.
  intros Hs. split.
  - intros Hon.
    destruct (reachable_sim_ok s Hs) as [_ (_ & _ & _ & _ & Hact)].
    destruct (reachable_sim_ok _ (reachable_step t s Hs))
      as [_ (_ & _ & _ & Hcap & _)].
    rewrite Hon in Hact. symmetry in Hact. apply Z.ltb_lt in Hact.
    pose proof (reachable_length s Hs) as Hlen.
    assert (Forall (fun d => (0 <? update_interval d)%float = true)
                   (dice_list s)) as Hpos.
    { apply Forall_forall. intros d Hd.
      now apply (reachable_interval_positive s d Hs). }
    destruct (for_dice_log t (dice_list s) 0 (globals s) Hact Hon)
      as (n & Hlog & Hn & Hnz & Hall).
    pose proof (for_dice_stop t (dice_list s) 0 (globals s) Hpos Hact Hon)
      as Hstop.
    unfold step, step_log in *. rewrite step_active in * by assumption.
    cbn [fst snd dice_list globals] in *.
    exists n. split; [exact Hlog | split; [| split; [exact Hall |]]].
    + split; [| exact Hn]. apply Hnz.
      intros Hnil. rewrite Hnil in Hlen. cbn [length] in Hlen.
      change (Z.to_nat NUM_DICE) with 100%nat in Hlen. discriminate.
    + intros Hoff.
      destruct (Hstop Hoff)
        as (pre & pre' & d & d' & rest & Htodo & Hds & Hlen' & Hlog'
            & Hadv & _ & Hcount & Hfull).
      assert (n = S (length pre)) as ->.
      { rewrite Hlog in Hlog'.
        apply (f_equal (@length _)) in Hlog'.
        now rewrite !length_seq in Hlog'. }
      rewrite Hds. clear Hlog Hlog' Hall Hstop Hds.
      set (l0 := dice_list s) in *. rewrite Htodo. clearbody l0.
      replace (S (length pre) - 1)%nat with (length pre) by lia.
      split; [| split].
      * exists d, d'. rewrite !nth_error_app2 by lia.
        rewrite Hlen', Nat.sub_diag. repeat split; try reflexivity.
        exact Hadv.
      * rewrite firstn_snoc. rewrite <- Hlen', firstn_snoc.
        rewrite (combine_snoc pre pre' d d' Hlen'), tally_app.
        rewrite tally_cons, Hadv. change (tally advanced []) with 0. lia.
      * rewrite skipn_snoc. rewrite <- Hlen', skipn_snoc. reflexivity.
  - intros Hoff. unfold step_log. now rewrite step_inactive.
Qed.

End CapDie.

(** * The clocks of the dice *)

Section Clocks.

Context {G : Type} `{RandomSource G}.

Lemma intervals_at_least_min (i : Z) :
  0 <= i < NUM_DICE - 1 -> float_ge (interval i) MIN_INTERVAL = true.
Proof.
  apply (range_forallb (fun i => float_ge (interval i) MIN_INTERVAL)).
  vm_compute. reflexivity.
Qed.

Lemma interval_last_below_min :
  float_ge (interval (NUM_DICE - 1)) MIN_INTERVAL = false.
Proof. vm_compute. reflexivity. Qed.

Lemma reachable_nth_interval (s : Sim G) (i : nat) (d : Dice) :
  reachable s -> nth_error (dice_list s) i = Some d ->
  (i < Z.to_nat NUM_DICE)%nat /\ update_interval d = interval (Z.of_nat i).
Proof.
  intros Hs Hd.
  assert (i < Z.to_nat NUM_DICE)%nat as Hi.
  { rewrite <- (reachable_length s Hs). apply nth_error_Some. congruence. }
  split; [exact Hi |].
  assert (nth_error (map fixed_part (dice_list s)) i = Some (fixed_part d))
    as Hn by (rewrite nth_error_map, Hd; reflexivity).
  rewrite (reachable_fixed s Hs), nth_error_map in Hn.
  rewrite (range_nth _ _ Hi) in Hn. cbn [option_map] in Hn.
  apply fixed_assigned. congruence.
Qed.

(** C10 on the code.  The die at index [i] of a state the program
    reaches has the interval of index [i], which is above zero; for the
    dice 0..98 it is at least [MIN_INTERVAL], and for the last die, 99,
    it is not: it is one rounding step below.  Whatever the intervals,
    along any sequence of calls of [update], with any times at all,
    [last_update_time] never goes back: each value it takes is the one
    before or a later time.  A call with a time before
    [last_update_time] returns false and changes nothing. *)
Theorem last_update_time_monotone (s : Sim G) (i : nat) (d : Dice) :
  reachable s -> nth_error (dice_list s) i = Some d ->
  update_interval d = interval (Z.of_nat i)
  /\ (0 <? update_interval d)%float = true
  /\ ((i < 99)%nat -> float_ge (update_interval d) MIN_INTERVAL = true)
  /\ ((i = 99)%nat -> float_ge (update_interval d) MIN_INTERVAL = false)
  /\ (forall (times : list float) (g : G),
         StronglySorted not_before (update_times times d g))
  /\ (forall (t : float) (g : G),
         not_before (last_update_time d)
                    (last_update_time (fst (fst (Dice_update d t g)))))
  /\ (forall (t : float) (g : G),
         (t <? last_update_time d)%float = true ->
         Dice_update d t g = (d, false, g)).
Proof.
  intros Hs Hd.
  destruct (reachable_nth_interval s i d Hs Hd) as [Hi Hiv].
  assert (In d (dice_list s)) as Hin by (eapply nth_error_In; eassumption).
  pose proof (reachable_interval_positive s d Hs Hin) as Hpos.
  change (Z.to_nat NUM_DICE) with 100%nat in Hi.
  split; [exact Hiv | split; [exact Hpos |]].
  split; [| split; [| split; [| split]]].
  - intros Hlt. rewrite Hiv. apply intervals_at_least_min.
    change (NUM_DICE - 1) with 99. lia.
  - intros ->. rewrite Hiv. exact interval_last_below_min.
  - intros times g. now apply update_times_sorted.
  - intros t g. now apply Dice_update_not_before.
  - intros t g. now apply Dice_update_regressed.
Qed.

End Clocks.

(** * The counters, the cap and the clocks on the run *)

Lemma tally_sum_witness :
  count_low (globals demo_end) + count_high (globals demo_end)
  = global_roll_count (globals demo_end)
  /\ (global_roll_count
        (turn_globals (visit 10.0%float sample_die sample_globals))
      = global_roll_count sample_globals + 1
      /\ count_low (turn_globals (visit 10.0%float sample_die sample_globals))
         = count_low sample_globals + 1
      /\ count_high (turn_globals (visit 10.0%float sample_die sample_globals))
         = count_high sample_globals)
  /\ (global_roll_count (globals (step 10.5%float demo_mid))
      = global_roll_count (globals demo_mid)
        + tally advanced
            (combine (dice_list demo_mid)
                     (dice_list (step 10.5%float demo_mid)))
      /\ count_low (globals (step 10.5%float demo_mid))
         = count_low (globals demo_mid)
           + tally low_roll
               (combine (dice_list demo_mid)
                        (dice_list (step 10.5%float demo_mid)))
      /\ count_high (globals (step 10.5%float demo_mid))
         = count_high (globals demo_mid)
           + tally high_roll
               (combine (dice_list demo_mid)
                        (dice_list (step 10.5%float demo_mid)))).
Proof.
  destruct (tally_sum demo_mid demo_mid_reachable)
    as (_ & Hturn & Hframe & _).
  split; [exact (proj1 (tally_sum demo_end demo_end_reachable)) | split].
  - assert (face sample_die) as Hface by (unfold face; vm_compute; intuition congruence).
    assert (global_roll_count sample_globals < MAX_ROLLS) as Hlt
        by (vm_compute; reflexivity).
    assert (snd (fst (Dice_update sample_die 10.0%float (rng sample_globals)))
            = true) as Hret by (vm_compute; reflexivity).
    destruct (Hturn 10.0%float sample_die sample_globals Hface)
      as (Hroll & _).
    destruct (Hroll Hlt Hret) as (_ & _ & Hc & Hb).
    split; [exact Hc |].
    destruct Hb as [(_ & Hl & Hh) | (Hv & _)]; [split; assumption |].
    exfalso. vm_compute in Hv. apply Hv. reflexivity.
  - exact (Hframe 10.5%float).
Defined.

Lemma frozen_at_cap_witness :
  global_roll_count (globals (step 10.5%float demo_mid)) = MAX_ROLLS
  /\ exists (pre pre' : list Dice) (d d' : Dice) (rest : list Dice),
      dice_list demo_mid = pre ++ d :: rest
      /\ dice_list (step 10.5%float demo_mid) = pre' ++ d' :: rest
      /\ length pre' = length pre
      /\ step_log 10.5%float demo_mid = seq 0 (S (length pre))
      /\ advanced (d, d') = true
      /\ last_update_time d' = 10.5%float
      /\ global_roll_count (globals demo_mid)
         + tally advanced (combine pre pre') + 1 = MAX_ROLLS
      /\ (forall j, (length pre < j)%nat ->
          nth_error (dice_list (step 10.5%float demo_mid)) j
          = nth_error (dice_list demo_mid) j).
Proof.
  assert (simulation_active (globals demo_mid) = true) as Hon
      by (vm_compute; reflexivity).
  assert (simulation_active (globals (step 10.5%float demo_mid)) = false)
    as Hoff by (vm_compute; reflexivity).
  exact (frozen_at_cap demo_mid 10.5%float demo_mid_reachable Hon Hoff).
Defined.

(** On the run the loop broke at die 61: [update] was called on the dice
    0..61, and die 62, which was due at 10.5, keeps the time 9.5. *)
Lemma frozen_at_cap_demo :
  step_log 10.5%float demo_mid = seq 0 62
  /\ option_map last_update_time
       (nth_error (dice_list (step 10.5%float demo_mid)) 61)
     = Some 10.5%float
  /\ option_map (due 10.5%float) (nth_error (dice_list demo_mid) 62)
     = Some true
  /\ option_map last_update_time
       (nth_error (dice_list (step 10.5%float demo_mid)) 62)
     = Some 9.5%float.
Proof. repeat split; vm_compute; reflexivity. Qed.

Lemma update_call_order_witness :
  exists n : nat,
    step_log 10.5%float demo_mid = seq 0 n
    /\ (1 <= n <= length (dice_list demo_mid))%nat
    /\ (simulation_active (globals (step 10.5%float demo_mid)) = true ->
        n = length (dice_list demo_mid))
    /\ (simulation_active (globals (step 10.5%float demo_mid)) = false ->
        (exists d d' : Dice,
            nth_error (dice_list demo_mid) (n - 1) = Some d
            /\ nth_error (dice_list (step 10.5%float demo_mid)) (n - 1)
               = Some d'
            /\ advanced (d, d') = true)
        /\ global_roll_count (globals demo_mid)
           + tally advanced
               (combine (firstn n (dice_list demo_mid))
                        (firstn n (dice_list (step 10.5%float demo_mid))))
           = MAX_ROLLS
        /\ skipn n (dice_list (step 10.5%float demo_mid))
           = skipn n (dice_list demo_mid)).
Proof.
  assert (simulation_active (globals demo_mid) = true) as Hon
      by (vm_compute; reflexivity).
  exact (proj1 (update_call_order demo_mid 10.5%float demo_mid_reachable)
               Hon).
Defined.

Lemma last_update_time_monotone_witness :
  ((0 <? update_interval demo_die)%float = true
   /\ float_ge (update_interval demo_die) MIN_INTERVAL = true
   /\ StronglySorted not_before
        (update_times [10.0; 3.0; 12.0; 11.0; 12.5; 13.5]%float
                      demo_die demo_script)
   /\ Dice_update demo_die 3.0%float demo_script
      = (demo_die, false, demo_script))
  /\ ((0 <? update_interval demo_last_die)%float = true
      /\ float_ge (update_interval demo_last_die) MIN_INTERVAL = false
      /\ StronglySorted not_before
           (update_times [10.0; 3.0; 12.0; 11.0; 12.5; 13.5]%float
                         demo_last_die demo_script)).
Proof.
  assert (nth_error (dice_list demo_mid) 0 = Some demo_die) as H0
      by (vm_compute; reflexivity).
  assert (nth_error (dice_list demo_mid) 99 = Some demo_last_die) as H99
      by (vm_compute; reflexivity).
  destruct (last_update_time_monotone demo_mid 0 demo_die
              demo_mid_reachable H0)
    as (_ & Hpos & Hmin & _ & Hsorted & _ & Hback).
  destruct (last_update_time_monotone demo_mid 99 demo_last_die
              demo_mid_reachable H99)
    as (_ & Hpos' & _ & Hbelow & Hsorted' & _).
  split.
  - split; [exact Hpos | split; [| split]].
    + apply Hmin. repeat constructor.
    + apply Hsorted.
    + apply Hback. vm_compute. reflexivity.
  - split; [exact Hpos' | split].
    + apply Hbelow. reflexivity.
    + apply Hsorted'.
Defined.
